(** * A shallow embedding of the complex-tensor operators and the
      Fourier-optics propagation of PhaseContrastTomographySolver

    [operators.py] works on real torch tensors whose trailing axis of
    size 2 holds (real, imaginary).  A tensor is modelled by its shape and
    its row-major data over the reals ([tensor] below); the Python
    exceptions the code can raise are the [Err] results of a small error
    monad.  [propagation.py] works on complex fields of shape (H,W,2),
    modelled as grids of complex numbers ([grid]); torch.fft/torch.ifft
    with signal_ndim=2 are the exact two-dimensional discrete Fourier
    transforms ([fft2], [ifft2]).  Floating point is replaced by exact real
    arithmetic. *)

From Stdlib Require Import Reals Lra Lia List Arith ZArith.
Import ListNotations.

(* ------------------------------------------------------------------ *)
(** ** Python errors and the error monad *)

Inductive py_error :=
| AssertionError
| IndexError
| AttributeError
| TypeError
| RuntimeError.

Inductive result (A : Type) : Type :=
| Ok (a : A)
| Err (e : py_error).
Arguments Ok {A} a.
Arguments Err {A} e.

Definition bind {A B} (m : result A) (k : A -> result B) : result B :=
  match m with
  | Ok a => k a
  | Err e => Err e
  end.

Notation "x <- m ;; k" := (bind m (fun x => k))
  (at level 61, m at next level, right associativity).

Definition is_ok {A} (m : result A) : bool :=
  match m with Ok _ => true | Err _ => false end.

(* ------------------------------------------------------------------ *)
(** ** Real tensors: shape and row-major data *)

Record tensor := mkT { shape : list nat; data : list R }.

Definition numel (sh : list nat) : nat := fold_right Nat.mul 1 sh.

(** [t.shape[-1]]: [None] on a 0-d tensor (Python raises IndexError). *)
Definition last_dim (sh : list nat) : option nat :=
  match sh with
  | [] => None
  | _ => Some (last sh 0%nat)
  end.

Fixpoint imap_from {A B} (f : nat -> A -> B) (i : nat) (l : list A) : list B :=
  match l with
  | [] => []
  | x :: l' => f i x :: imap_from f (S i) l'
  end.

Definition imap {A B} (f : nat -> A -> B) (l : list A) : list B :=
  imap_from f 0 l.

(** Elementwise map (scalar * tensor, tensor ** p, torch.cos, ...). *)
Definition tmap (f : R -> R) (t : tensor) : tensor :=
  mkT (shape t) (map f (data t)).

Definition zeros_like (t : tensor) : tensor := tmap (fun _ => 0%R) t.

(** [t[..., k]] *)
Definition select_last (t : tensor) (k : nat) : result tensor :=
  match last_dim (shape t) with
  | None => Err IndexError
  | Some m =>
      if k <? m then
        let sh := removelast (shape t) in
        Ok (mkT sh (map (fun j => nth (j * m + k) (data t) 0%R) (seq 0 (numel sh))))
      else Err IndexError
  end.

(** In-place update of [t[..., k]]: entry [i] lies in cell [i / m] and
    channel [i mod m]; [g c x] is the new value of channel [k] of cell [c]. *)
Definition update_last (t : tensor) (k : nat) (g : nat -> R -> R) : result tensor :=
  match last_dim (shape t) with
  | None => Err IndexError
  | Some m =>
      if k <? m then
        Ok (mkT (shape t)
              (imap (fun i x => if (i mod m =? k)%nat then g (i / m)%nat x else x) (data t)))
      else Err IndexError
  end.

(** [t[..., k] = v] and [t[..., k] /= v], where [v] has the leading shape
    of [t] (the only shape the code assigns). *)
Definition assign_last (t : tensor) (k : nat) (v : tensor) : result tensor :=
  if list_eq_dec Nat.eq_dec (shape v) (removelast (shape t))
  then update_last t k (fun c _ => nth c (data v) 0%R)
  else Err RuntimeError.

Definition divide_last (t : tensor) (k : nat) (v : tensor) : result tensor :=
  if list_eq_dec Nat.eq_dec (shape v) (removelast (shape t))
  then update_last t k (fun c x => (x / nth c (data v) 0%R)%R)
  else Err RuntimeError.

(** Broadcasting of two shapes (numpy rule, right aligned). *)
Fixpoint bcast_rev (a b : list nat) : option (list nat) :=
  match a, b with
  | [], _ => Some b
  | _, [] => Some a
  | x :: a', y :: b' =>
      match bcast_rev a' b' with
      | None => None
      | Some r =>
          if (x =? y)%nat then Some (x :: r)
          else if (x =? 1)%nat then Some (y :: r)
          else if (y =? 1)%nat then Some (x :: r)
          else None
      end
  end.

Definition bcast_shape (a b : list nat) : option (list nat) :=
  option_map (@rev nat) (bcast_rev (rev a) (rev b)).

Fixpoint unravel (sh : list nat) (i : nat) : list nat :=
  match sh with
  | [] => []
  | _ :: sh' => (i / numel sh')%nat :: unravel sh' (i mod numel sh')
  end.

Fixpoint ravel (sh idx : list nat) : nat :=
  match sh, idx with
  | n :: sh', k :: idx' => ((k mod n) * numel sh' + ravel sh' idx')%nat
  | _, _ => 0%nat
  end.

(** Position in an operand of shape [sh] read by entry [i] of a
    broadcast result of shape [out] (size-1 axes read index 0). *)
Definition source_index (out sh : list nat) (i : nat) : nat :=
  ravel sh (skipn (length out - length sh) (unravel out i)).

(** Elementwise binary operation with broadcasting. *)
Definition zip_with (f : R -> R -> R) (a b : tensor) : result tensor :=
  match bcast_shape (shape a) (shape b) with
  | None => Err RuntimeError
  | Some sh =>
      Ok (mkT sh (map (fun i => f (nth (source_index sh (shape a) i) (data a) 0%R)
                                  (nth (source_index sh (shape b) i) (data b) 0%R))
                      (seq 0 (numel sh))))
  end.

(** [t.sum(-1)] *)
Definition sum_last (t : tensor) : tensor :=
  match last_dim (shape t) with
  | None => t
  | Some m =>
      let sh := removelast (shape t) in
      mkT sh (map (fun j => fold_right Rplus 0%R
                              (map (fun c => nth (j * m + c) (data t) 0%R) (seq 0 m)))
                  (seq 0 (numel sh)))
  end.

(** [t.sum(0)] *)
Definition sum_first (t : tensor) : tensor :=
  match shape t with
  | [] => t
  | n :: sh =>
      mkT sh (map (fun j => fold_right Rplus 0%R
                              (map (fun i => nth (i * numel sh + j) (data t) 0%R) (seq 0 n)))
                  (seq 0 (numel sh)))
  end.

(** [torch.stack((a, b), dim=len(a.shape))]: a new trailing axis of size 2. *)
Definition stack_last2 (a b : tensor) : result tensor :=
  if list_eq_dec Nat.eq_dec (shape a) (shape b)
  then Ok (mkT (shape a ++ [2%nat]) (flat_map (fun p => [fst p; snd p]) (combine (data a) (data b))))
  else Err RuntimeError.

(** [torch.atan2(y, x)] *)
Definition atan2 (y x : R) : R :=
  if Rlt_dec 0 x then atan (y / x)
  else if Rlt_dec x 0 then
    (if Rle_dec 0 y then atan (y / x) + PI else atan (y / x) - PI)
  else if Rlt_dec 0 y then PI / 2
  else if Rlt_dec y 0 then - (PI / 2)
  else 0.

(* ------------------------------------------------------------------ *)
(** ** Nested tensors, for torch.roll *)

#[warnings="-register-all"]
Inductive nd (A : Type) : Type :=
| Scalar (x : A)
| Arr (xs : list (nd A)).
Arguments Scalar {A} x.
Arguments Arr {A} xs.

Record ndtensor (A : Type) := mkND { nd_shape : list nat; nd_body : nd A }.
Arguments mkND {A} nd_shape nd_body.
Arguments nd_shape {A} n.
Arguments nd_body {A} n.

(** [torch.roll] of one axis of length [n]: entry [i] moves to
    [(i + s) mod n]. *)
Definition roll_list {A} (s : Z) (l : list A) : list A :=
  let n := length l in
  if (n =? 0)%nat then l
  else
    let k := Z.to_nat (s mod Z.of_nat n) in
    skipn (n - k) l ++ firstn (n - k) l.

Fixpoint roll_at {A} (ax : nat) (s : Z) (t : nd A) : nd A :=
  match t with
  | Scalar x => Scalar x
  | Arr xs =>
      match ax with
      | O => Arr (roll_list s xs)
      | S ax' => Arr (map (roll_at ax' s) xs)
      end
  end.

(* ------------------------------------------------------------------ *)
(** ** operators.py *)

Module operators.

Definition r2c (t : tensor) : tensor :=
  mkT (shape t ++ [2%nat]) (flat_map (fun x => [x; 0%R]) (data t)).

Definition real (t : tensor) : result tensor := select_last t 0.
Definition imag (t : tensor) : result tensor := select_last t 1.

(** [c = t.clone(); c[..., 1] *= -1.0] *)
Definition conj (t : tensor) : result tensor :=
  update_last t 1 (fun _ x => (x * -1)%R).

Definition angle (t : tensor) : result tensor :=
  im <- select_last t 1 ;;
  re <- select_last t 0 ;;
  zip_with atan2 im re.

Definition exp (t : tensor) : result tensor :=
  re <- select_last t 0 ;;
  let amplitude := tmap Rtrigo_def.exp re in
  im <- select_last t 1 ;;
  c <- zip_with Rmult amplitude (tmap cos im) ;;
  out <- assign_last t 0 c ;;
  im' <- select_last t 1 ;;
  s <- zip_with Rmult amplitude (tmap sin im') ;;
  assign_last out 1 s.

Definition multiply_complex (t1 t2 : tensor) : result tensor :=
  a0 <- select_last t1 0 ;; b0 <- select_last t2 0 ;; p <- zip_with Rmult a0 b0 ;;
  a1 <- select_last t1 1 ;; b1 <- select_last t2 1 ;; q <- zip_with Rmult a1 b1 ;;
  re <- zip_with Rminus p q ;;
  c0 <- select_last t1 0 ;; d1 <- select_last t2 1 ;; u <- zip_with Rmult c0 d1 ;;
  c1 <- select_last t1 1 ;; d0 <- select_last t2 0 ;; v <- zip_with Rmult c1 d0 ;;
  im <- zip_with Rplus u v ;;
  stack_last2 re im.

Definition division_complex (t1 t2 : tensor) : result tensor :=
  let denominator := sum_last (tmap (fun x => x ^ 2)%R t2) in
  a0 <- select_last t1 0 ;; b0 <- select_last t2 0 ;; p <- zip_with Rmult a0 b0 ;;
  a1 <- select_last t1 1 ;; b1 <- select_last t2 1 ;; q <- zip_with Rmult a1 b1 ;;
  n0 <- zip_with Rplus p q ;; re <- zip_with Rdiv n0 denominator ;;
  c1 <- select_last t1 1 ;; d0 <- select_last t2 0 ;; u <- zip_with Rmult c1 d0 ;;
  c0 <- select_last t1 0 ;; d1 <- select_last t2 1 ;; v <- zip_with Rmult c0 d1 ;;
  n1 <- zip_with Rminus u v ;; im <- zip_with Rdiv n1 denominator ;;
  stack_last2 re im.

(** [assert complex_tensor.shape[-1]==2, ...] *)
Definition assert_complex (t : tensor) : result unit :=
  match last_dim (shape t) with
  | None => Err IndexError
  | Some m => if (m =? 2)%nat then Ok tt else Err AssertionError
  end.

Definition abs (t : tensor) : result tensor :=
  _ <- assert_complex t ;;
  Ok (tmap sqrt (sum_last (tmap (fun x => x ^ 2)%R t))).

(** [np.atleast_1d(axes)]: [None] (the default), one axis, or a list. *)
Inductive axes_arg :=
| AxesNone
| AxesInt (a : Z)
| AxesList (l : list Z).

(** Python indexing of [ret.shape] by an axis (negative axes count from
    the end); torch.roll resolves [dims] the same way. *)
Definition resolve_axis (rank : nat) (a : Z) : result nat :=
  if ((0 <=? a)%Z && (a <? Z.of_nat rank)%Z)%bool then Ok (Z.to_nat a)
  else if ((- Z.of_nat rank <=? a)%Z && (a <? 0)%Z)%bool then Ok (Z.to_nat (Z.of_nat rank + a))
  else Err IndexError.

(** [for axis in axes: ret = torch.roll(ret, shift(ret.shape[axis]), dims=int(axis))] *)
Fixpoint roll_loop {A} (shift : nat -> Z) (axs : list Z) (t : ndtensor A) : result (ndtensor A) :=
  match axs with
  | [] => Ok t
  | a :: axs' =>
      ax <- resolve_axis (length (nd_shape t)) a ;;
      let n := nth ax (nd_shape t) 0%nat in
      roll_loop shift axs' (mkND (nd_shape t) (roll_at ax (shift n) (nd_body t)))
  end.

Definition atleast_1d (axes : axes_arg) : result (list Z) :=
  match axes with
  | AxesNone => Err TypeError   (* ret.shape[None] *)
  | AxesInt a => Ok [a]
  | AxesList l => Ok l
  end.

Definition fftshift {A} (tensor_in : ndtensor A) (axes : axes_arg) : result (ndtensor A) :=
  axs <- atleast_1d axes ;;
  roll_loop (fun n => Z.of_nat (n / 2)) axs tensor_in.

Definition ifftshift {A} (tensor_in : ndtensor A) (axes : axes_arg) : result (ndtensor A) :=
  axs <- atleast_1d axes ;;
  roll_loop (fun n => (-1 * Z.of_nat (n / 2))%Z) axs tensor_in.

(** *** The torch.autograd.Function classes *)

Definition ComplexConj_forward (tensor_in : tensor) : result tensor := conj tensor_in.
Definition ComplexConj_backward (grad_output : tensor) : result tensor := conj grad_output.

Definition ComplexMul_forward (input1 input2 : tensor) : result tensor :=
  _ <- assert_complex input1 ;;
  _ <- assert_complex input2 ;;
  multiply_complex input1 input2.

Definition ComplexMul_backward (input1 input2 grad_output : tensor) : result (tensor * tensor) :=
  c2 <- conj input2 ;; grad_input1 <- multiply_complex c2 grad_output ;;
  c1 <- conj input1 ;; grad_input2 <- multiply_complex c1 grad_output ;;
  if (length (shape input2) <? length (shape input1))%nat then Ok (grad_input1, sum_first grad_input2)
  else if (length (shape input1) <? length (shape input2))%nat then Ok (sum_first grad_input1, grad_input2)
  else Ok (grad_input1, grad_input2).

Definition ComplexDiv_forward (input1 input2 : tensor) : result tensor :=
  _ <- assert_complex input1 ;;
  _ <- assert_complex input2 ;;
  division_complex input1 input2.

Definition ComplexDiv_backward (input1 input2 grad_output : tensor) : result (tensor * tensor) :=
  let denominator := sum_last (tmap (fun x => x ^ 2)%R input2) in
  g1 <- divide_last input2 0 denominator ;;
  g1 <- divide_last g1 1 denominator ;;
  grad_input1 <- multiply_complex g1 grad_output ;;
  sq <- multiply_complex input2 input2 ;;
  q <- division_complex input1 sq ;;
  cq <- conj q ;;
  let g2 := tmap (fun x => -1 * x)%R cq in
  grad_input2 <- multiply_complex g2 grad_output ;;
  if (length (shape input2) <? length (shape input1))%nat then Ok (grad_input1, sum_first grad_input2)
  else if (length (shape input1) <? length (shape input2))%nat then Ok (sum_first grad_input1, grad_input2)
  else Ok (grad_input1, grad_input2).

Definition ComplexAbs_forward (tensor_in : tensor) : result tensor :=
  _ <- assert_complex tensor_in ;;
  Ok (tmap sqrt (sum_last (tmap (fun x => x ^ 2)%R tensor_in))).

(** [torch.stack((a, b), dim=len(grad_output.shape))]: autograd hands
    [grad_output] with the forward output's shape, so [dim] is the
    trailing position of [a] and [b]. *)
Definition stack_at (dim : nat) (a b : tensor) : result tensor :=
  if (dim =? length (shape a))%nat then stack_last2 a b else Err RuntimeError.

Definition ComplexAbs_backward (tensor_in grad_output : tensor) : result tensor :=
  grad_input <- stack_at (length (shape grad_output)) grad_output (zeros_like grad_output) ;;
  phase <- angle tensor_in ;;
  phase_input <- stack_at (length (shape grad_output)) (tmap cos phase) (tmap sin phase) ;;
  g <- multiply_complex phase_input grad_input ;;
  Ok (tmap (fun x => 0.5 * x)%R g).

Definition ComplexAbs2_forward (tensor_in : tensor) : result tensor :=
  _ <- assert_complex tensor_in ;;
  c <- conj tensor_in ;;
  out <- multiply_complex c tensor_in ;;
  select_last out 0.

Definition ComplexAbs2_backward (tensor_in grad_output : tensor) : result tensor :=
  grad_output_c <- stack_at (length (shape grad_output)) grad_output (zeros_like grad_output) ;;
  multiply_complex tensor_in grad_output_c.

Definition ComplexExp_forward (tensor_in : tensor) : result tensor :=
  _ <- assert_complex tensor_in ;;
  exp tensor_in.

Definition ComplexExp_backward (output grad_output : tensor) : result tensor :=
  c <- conj output ;;
  multiply_complex c grad_output.

End operators.

(* ------------------------------------------------------------------ *)
(** ** Complex scalars and fields, for propagation.py *)

Definition C := (R * R)%type.

Definition cadd (z w : C) : C := (fst z + fst w, snd z + snd w)%R.
(** [multiply_complex] on one element *)
Definition cmul (z w : C) : C :=
  (fst z * fst w - snd z * snd w, fst z * snd w + snd z * fst w)%R.
(** scalar * complex tensor *)
Definition cscale (r : R) (z : C) : C := (r * fst z, r * snd z)%R.
(** [operators.conj] on one element: the imaginary channel times -1.0 *)
Definition cconj (z : C) : C := (fst z, snd z * -1)%R.
(** [operators.exp] on one element *)
Definition cexp (z : C) : C :=
  (exp (fst z) * cos (snd z), exp (fst z) * sin (snd z))%R.
Definition cis (th : R) : C := (cos th, sin th).
Definition csum (l : list C) : C := fold_right cadd (0, 0)%R l.
(** The sum of [f i] for [i < N]. *)
Definition csumf (N : nat) (f : nat -> C) : C := csum (map f (seq 0 N)).

(** A field or kernel of shape (H, W, 2): H rows of W complex values. *)
Definition grid := list (list C).

Definition rows (g : grid) : nat := length g.
Definition cols (g : grid) : nat := length (hd [] g).
Definition rect (H W : nat) (g : grid) : Prop :=
  length g = H /\ Forall (fun r => length r = W) g.

Definition gmap (f : C -> C) (g : grid) : grid := map (map f) g.
Definition gget (g : grid) (h w : nat) : C := nth w (nth h g []) (0, 0)%R.

(** [multiply_complex] on two fields of the same shape *)
Definition multiply_grid (a b : grid) : grid :=
  map (fun rw => map (fun p => cmul (fst p) (snd p)) (combine (fst rw) (snd rw)))
      (combine a b).

(** [torch.fft(x, signal_ndim=2)] and [torch.ifft(x, signal_ndim=2)]: the
    two-dimensional DFT, the inverse one normalised by 1/(H W). *)
Definition dft2 (sgn nrm : R) (x : grid) : grid :=
  let H := rows x in
  let W := cols x in
  map (fun k1 => map (fun k2 =>
        cscale nrm (csum (flat_map (fun n1 => map (fun n2 =>
          cmul (gget x n1 n2)
               (cis (sgn * 2 * PI * (INR (k1 * n1) / INR H + INR (k2 * n2) / INR W))))
          (seq 0 W)) (seq 0 H))))
      (seq 0 W)) (seq 0 H).

Definition fft2 (x : grid) : grid := dft2 (-1) 1 x.
Definition ifft2 (x : grid) : grid := dft2 1 (/ (INR (rows x) * INR (cols x))) x.

(** [convolve_kernel(tensor_in, kernel, n_dim=2, flag_inplace)]: both
    branches compute the same value. *)
Definition convolve_kernel (tensor_in kernel : grid) : grid :=
  ifft2 (multiply_grid (fft2 tensor_in) kernel).

(** The differentiable operators used by the propagation code, with a
    record of which of them ran. *)
Inductive event :=
| KernelExp
| KernelConj
| Convolution.

Definition traced (A : Type) : Type := (A * list event)%type.

Definition tret {A} (a : A) : traced A := (a, []).
Definition tbind {A B} (m : traced A) (k : A -> traced B) : traced B :=
  let (a, l1) := m in
  let (b, l2) := k a in
  (b, l1 ++ l2).

Notation "x <-- m ;; k" := (tbind m (fun x => k))
  (at level 61, m at next level, right associativity).

Definition complex_exp (t : grid) : traced grid := (gmap cexp t, [KernelExp]).
Definition complex_conj (t : grid) : traced grid := (gmap cconj t, [KernelConj]).
Definition complex_conv (tensor_in kernel : grid) : traced grid :=
  (convolve_kernel tensor_in kernel, [Convolution]).
Definition complex_mul (a b : grid) : grid := multiply_grid a b.

(** [ComplexConv] of operators.py on fields of shape (H, W, 2) with
    [n_dim = 2], as propagation.py applies it; [backward] returns the
    gradients of [tensor_in] and [kernel_in]. *)
Definition ComplexConv_forward (tensor_in kernel_in : grid) : grid :=
  convolve_kernel tensor_in kernel_in.
Definition ComplexConv_backward (kernel_in grad_output : grid) : grid * grid :=
  (convolve_kernel grad_output (gmap cconj kernel_in),
   convolve_kernel (gmap cconj grad_output) kernel_in).

(* ------------------------------------------------------------------ *)
(** ** propagation.py *)

Module propagation.

(** [SingleSlicePropagation.forward]; [kernel_phase] is the output of
    generate_angular_spectrum_kernel. *)
Definition SingleSlice_forward (kernel_phase field_in : grid) (propagation_distance : R)
  : traced grid :=
  if Req_dec_T propagation_distance 0 then tret field_in
  else
    kernel <-- complex_exp (gmap (cscale (Rabs propagation_distance)) kernel_phase) ;;
    kernel <-- (if Rlt_dec 0 propagation_distance then tret kernel else complex_conj kernel) ;;
    complex_conv field_in kernel.

Definition propagate (kernel_phase field : grid) (d : R) : grid :=
  fst (SingleSlice_forward kernel_phase field d).

(** [MultislicePropagation]: [L] is [shape[2]], [s] is [voxel_size[2]],
    [obj i] is [obj[:,:,i,:]]; the field type, [complex_mul] and the
    single-slice propagation are parameters. *)
Section Multislice.
Variable F : Type.
Variable mul : F -> F -> F.
Variable prop : F -> R -> F.

Definition distance_to_center (L : nat) (s : R) : R := ((INR L / 2 - 1 / 2) * s)%R.

Definition Multislice_forward (L : nat) (s : R) (obj : nat -> F) (field_in : option F) : F :=
  let field := match field_in with
               | None => obj 0%nat
               | Some f => mul f (obj 0%nat)
               end in
  let field := prop field s in
  fold_left (fun field layer_idx =>
               let field := mul field (obj layer_idx) in
               if (layer_idx <? L - 1)%nat then prop field s
               else prop field (-1 * distance_to_center L s)%R)
            (seq 1 (L - 1)) field.

(** The order of operations as the specification of the multislice model
    states it (not the code): for i = 0 .. L-1 multiply by layer i, then
    propagate by [s], or by -(L/2 - 1/2) s after the last layer; without an
    input field the field starts as layer 0 and its multiply is skipped. *)
Definition multislice_stated (L : nat) (s : R) (obj : nat -> F) (field_in : option F) : F :=
  let step field i :=
    prop (mul field (obj i)) (if (S i <? L)%nat then s else (- distance_to_center L s)%R) in
  match field_in with
  | Some f => fold_left step (seq 0 L) f
  | None =>
      fold_left step (seq 1 (L - 1))
                (prop (obj 0%nat) (if (1 <? L)%nat then s else (- distance_to_center L s)%R))
  end.
End Multislice.

Arguments Multislice_forward {F} mul prop L s obj field_in.
Arguments multislice_stated {F} mul prop L s obj field_in.

Definition MultislicePropagation_forward (kernel_phase : grid) (L : nat) (s : R)
  (obj : nat -> grid) (field_in : option grid) : grid :=
  Multislice_forward complex_mul (propagate kernel_phase) L s obj field_in.

(** The defocus list: a Python list or a torch tensor of offsets. *)
Inductive defocus_arg :=
| PyList (l : list R)
| TensorList (l : list R).

Definition offsets (a : defocus_arg) : list R :=
  match a with PyList l => l | TensorList l => l end.

(** The default argument [defocus_list=[0.0]]. *)
Definition defocus_default : defocus_arg := PyList [0%R].

Record defocus_ctx := mkCtx {
  ctx_kernel : grid;
  ctx_field : grid;          (* the saved fft of the field *)
  ctx_defocus_list : defocus_arg
}.

(** Kernel of one offset in [Defocus.forward]. *)
Definition defocus_kernel (kernel : grid) (d : R) : grid :=
  let kernel_temp := gmap cexp (gmap (cscale (Rabs d)) kernel) in
  if Rlt_dec 0 d then kernel_temp else gmap cconj kernel_temp.

(** Kernel of one offset in [Defocus.backward]. *)
Definition defocus_backward_kernel (kernel : grid) (d : R) : grid :=
  let kernel_temp := gmap cexp (gmap (cscale (Rabs d)) kernel) in
  if Rlt_dec d 0 then kernel_temp else gmap cconj kernel_temp.

(** [.permute(1,2,0,3)] of an (n, H, W) stack: an (H, W, n) array. *)
Definition stack_to_hwn (H W : nat) (slices : list grid) : list (list (list C)) :=
  map (fun h => map (fun w => map (fun sl => gget sl h w) slices) (seq 0 W)) (seq 0 H).

(** [.permute(2,0,1,3)] of an (H, W, n) array. *)
Definition hwn_to_stack (g : list (list (list C))) : list grid :=
  let H := length g in
  let W := length (hd [] g) in
  let n := length (hd [] (hd [] g)) in
  map (fun j => map (fun h => map (fun w => nth j (nth w (nth h g []) []) (0, 0)%R)
                                  (seq 0 W)) (seq 0 H)) (seq 0 n).

Definition offset_count (g : list (list (list C))) : nat := length (hd [] (hd [] g)).

Definition Defocus_forward (field kernel : grid) (defocus_list : defocus_arg)
  : list (list (list C)) * defocus_ctx :=
  let fieldF := fft2 field in
  let ctx := mkCtx kernel fieldF defocus_list in
  let slices := map (fun d => multiply_grid fieldF (defocus_kernel kernel d))
                    (offsets defocus_list) in
  (stack_to_hwn (rows fieldF) (cols fieldF) (map ifft2 slices), ctx).

(** [Defocus.backward]; [defocus_list.clone()] exists only on tensors. *)
Definition Defocus_backward (ctx : defocus_ctx) (grad_output : list (list (list C)))
  : result (grid * list R) :=
  match ctx_defocus_list ctx with
  | PyList _ => Err AttributeError
  | TensorList l =>
      let kernel := ctx_kernel ctx in
      let field := ctx_field ctx in
      let G := map fft2 (hwn_to_stack grad_output) in
      if (length G <? length l)%nat then Err IndexError
      else
        let G := imap (fun j Gj => if (j <? length l)%nat
                                   then multiply_grid Gj (defocus_backward_kernel kernel (nth j l 0%R))
                                   else Gj) G in
        let grad_defocus_list :=
          map (fun j => fst (csum (concat (multiply_grid
                                             (multiply_grid (nth j G []) (gmap cconj field))
                                             (gmap cconj kernel)))))
              (seq 0 (length l)) in
        let out := map ifft2 G in
        let H := length grad_output in
        let W := length (hd [] grad_output) in
        let grad_field :=
          map (fun h => map (fun w => csum (map (fun sl => gget sl h w) out)) (seq 0 W)) (seq 0 H) in
        Ok (grad_field, grad_defocus_list)
  end.

End propagation.

(* ------------------------------------------------------------------ *)
(** ** Views of the backward passes and of the shift loops *)

(** The elementwise backward products of [ComplexMul] and [ComplexDiv],
    before any reduction. *)
Definition mul_backward_products (input1 input2 grad_output : tensor) : result (tensor * tensor) :=
  c2 <- operators.conj input2 ;; g1 <- operators.multiply_complex c2 grad_output ;;
  c1 <- operators.conj input1 ;; g2 <- operators.multiply_complex c1 grad_output ;;
  Ok (g1, g2).

Definition div_backward_products (input1 input2 grad_output : tensor) : result (tensor * tensor) :=
  let denominator := sum_last (tmap (fun x => x ^ 2)%R input2) in
  g1 <- divide_last input2 0 denominator ;;
  g1 <- divide_last g1 1 denominator ;;
  grad_input1 <- operators.multiply_complex g1 grad_output ;;
  sq <- operators.multiply_complex input2 input2 ;;
  q <- operators.division_complex input1 sq ;;
  cq <- operators.conj q ;;
  grad_input2 <- operators.multiply_complex (tmap (fun x => -1 * x)%R cq) grad_output ;;
  Ok (grad_input1, grad_input2).

Definition reduce_second (p : tensor * tensor) : result (tensor * tensor) :=
  Ok (fst p, sum_first (snd p)).
Definition reduce_first (p : tensor * tensor) : result (tensor * tensor) :=
  Ok (sum_first (fst p), snd p).

(** Cell [j] of a complex tensor of shape [sh ++ [2]]: its real and
    imaginary channels. *)
Definition cell (t : tensor) (j : nat) : C :=
  (nth (j * 2) (data t) 0%R, nth (j * 2 + 1) (data t) 0%R).

(** Axes of fftshift and ifftshift, and the rolls their loops perform. *)
Definition valid_axis (rank : nat) (a : Z) : Prop :=
  (- Z.of_nat rank <= a < Z.of_nat rank)%Z.

Definition axis_index (rank : nat) (a : Z) : nat :=
  if (0 <=? a)%Z then Z.to_nat a else Z.to_nat (Z.of_nat rank + a).

(** The rolls a loop over the axes performs: (axis, shift) pairs. *)
Definition roll_plan (shift : nat -> Z) (sh : list nat) (axs : list Z) : list (nat * Z) :=
  map (fun a => (axis_index (length sh) a, shift (nth (axis_index (length sh) a) sh 0%nat))) axs.

Definition apply_rolls {A} (ops : list (nat * Z)) (t : nd A) : nd A :=
  fold_left (fun t o => roll_at (fst o) (snd o) t) ops t.

Definition invert_rolls (ops : list (nat * Z)) : list (nat * Z) :=
  map (fun o => (fst o, (- snd o)%Z)) ops.

(** A nested tensor whose body has the sizes [sh] at every level (every
    torch tensor has this form). *)
Fixpoint wf_nd {A} (sh : list nat) (t : nd A) : Prop :=
  match sh, t with
  | [], Scalar _ => True
  | n :: sh', Arr xs => length xs = n /\ Forall (wf_nd sh') xs
  | _, _ => False
  end.

(* ================================================================== *)
(** * Properties *)

(* ------------------------------------------------------------------ *)
(** ** Auxiliary lemmas *)

Ltac run_binds :=
  repeat (match goal with
          | |- context [bind ?m _] =>
              let E := fresh "E" in destruct m eqn:E; cbn [bind]; try reflexivity
          end).

Ltac destruct_ifs :=
  repeat match goal with
         | |- context [if ?b then _ else _] => destruct b
         end.

Lemma imap_from_compose {A B D} (f : nat -> B -> D) (g : nat -> A -> B) n l :
  imap_from f n (imap_from g n l) = imap_from (fun i x => f i (g i x)) n l.
Proof. revert n; induction l as [|x l IH]; intros n; simpl; f_equal; auto. Qed.

Lemma imap_from_id {A} (f : nat -> A -> A) n l :
  (forall i x, f i x = x) -> imap_from f n l = l.
Proof. intros Hf; revert n; induction l as [|x l IH]; intros n; simpl; f_equal; auto. Qed.

Lemma single_slice_unfold_nonzero kernel_phase field d :
  d <> 0%R ->
  propagation.SingleSlice_forward kernel_phase field d =
  (convolve_kernel field (propagation.defocus_kernel kernel_phase d),
   if Rlt_dec 0 d then [KernelExp; Convolution] else [KernelExp; KernelConj; Convolution]).
Proof.
  intros Hd. unfold propagation.SingleSlice_forward, propagation.defocus_kernel.
  destruct (Req_dec_T d 0) as [E|_]; [contradiction|].
  destruct (Rlt_dec 0 d); reflexivity.
Qed.

(* ------------------------------------------------------------------ *)
(** ** C6: single-slice propagation by distance 0 *)

(** C6: single-slice propagation called with distance 0 returns the field
    unchanged and runs none of the kernel exponential, the conjugation or
    the convolution (its record of operators is empty). *)
Theorem single_slice_distance_zero :
  forall kernel_phase field,
    propagation.SingleSlice_forward kernel_phase field 0%R = (field, []).
Proof.
  intros kernel_phase field. unfold propagation.SingleSlice_forward.
  destruct (Req_dec_T 0 0) as [_|n]; [reflexivity|congruence].
Qed.

(* ------------------------------------------------------------------ *)
(** ** C9: conj is an involution *)

(** C9: for a complex tensor (trailing axis of size 2), conjugating twice
    returns the tensor, elementwise and exactly. *)
Theorem conj_conj :
  forall z, last_dim (shape z) = Some 2%nat ->
    (c <- operators.conj z ;; operators.conj c) = Ok z.
Proof.
  intros [sh d] H. simpl in H.
  unfold operators.conj, update_last. simpl. rewrite H. simpl. rewrite H. simpl.
  f_equal. f_equal. unfold imap. rewrite imap_from_compose. apply imap_from_id.
  intros i x. destruct_ifs; ring.
Qed.

Lemma conj_conj_witness :
  last_dim (shape (mkT [2%nat] [1%R; 2%R])) = Some 2%nat /\
  (c <- operators.conj (mkT [2%nat] [1%R; 2%R]) ;; operators.conj c) = Ok (mkT [2%nat] [1%R; 2%R]).
Proof. split; [reflexivity | apply conj_conj; reflexivity]. Defined.

(* ------------------------------------------------------------------ *)
(** ** C10: the defocus backward pass needs a tensor defocus list *)

(** C10: after a forward pass with a plain Python list of offsets
    (including the default [0.0]) the backward pass fails with an
    AttributeError (a list has no [clone]); with a tensor of offsets, and
    an output gradient carrying at least that many offsets, it returns the
    field and offset gradients. *)
Theorem defocus_backward_list_attribute_error :
  (forall field kernel l grad_output,
     propagation.Defocus_backward
       (snd (propagation.Defocus_forward field kernel (propagation.PyList l))) grad_output
     = Err AttributeError) /\
  (forall field kernel grad_output,
     propagation.Defocus_backward
       (snd (propagation.Defocus_forward field kernel propagation.defocus_default)) grad_output
     = Err AttributeError) /\
  (forall field kernel l grad_output,
     (length l <= propagation.offset_count grad_output)%nat ->
     is_ok (propagation.Defocus_backward
              (snd (propagation.Defocus_forward field kernel (propagation.TensorList l)))
              grad_output) = true).
Proof.
  split; [|split].
  - intros. reflexivity.
  - intros. reflexivity.
  - intros field kernel l g Hl. cbn [propagation.Defocus_backward snd propagation.Defocus_forward
                                     propagation.ctx_defocus_list].
    unfold propagation.hwn_to_stack. rewrite length_map, length_map, length_seq.
    unfold propagation.offset_count in Hl.
    destruct (Nat.ltb_spec (length (hd [] (hd [] g))) (length l)); [lia|reflexivity].
Qed.

Lemma defocus_backward_witness :
  (1 <= propagation.offset_count [[[(0, 0)%R]]])%nat /\
  is_ok (propagation.Defocus_backward
           (snd (propagation.Defocus_forward [[(1, 0)%R]] [[(0, 0)%R]] (propagation.TensorList [0%R])))
           [[[(0, 0)%R]]]) = true.
Proof.
  split; [unfold propagation.offset_count; simpl; lia|].
  apply (proj2 (proj2 defocus_backward_list_attribute_error)). unfold propagation.offset_count; simpl; lia.
Defined.

(* ------------------------------------------------------------------ *)
(** ** C1: the per-offset kernel of the defocus stack *)

(** C1 as stated (conjugated exactly when the offset is positive) fails
    at offset 1 with kernel_phase (0, pi/2): the code keeps
    exp(1 * (0, pi/2)) = (0, 1) unconjugated. *)
Lemma defocus_kernel_positive_not_conjugated :
  ~ (forall kernel d,
       propagation.defocus_kernel kernel d =
       (if Rlt_dec 0 d then gmap cconj (gmap cexp (gmap (cscale (Rabs d)) kernel))
        else gmap cexp (gmap (cscale (Rabs d)) kernel))).
Proof.
  intros H. specialize (H [[(0, PI / 2)%R]] 1%R).
  unfold propagation.defocus_kernel in H.
  destruct (Rlt_dec 0 1) as [_|n]; [|lra].
  cbn in H. injection H as H.
  rewrite Rabs_R1, Rmult_0_r, Rmult_1_l, exp_0, sin_PI2 in H. lra.
Qed.

(** C1 (amended): the kernel of offset [d] in the defocus forward pass is
    exp(|d| kernel_phase), conjugated exactly when [d] is not positive; for
    every nonzero [d] it is the kernel single-slice propagation by [d]
    convolves with (conjugated when the distance is negative), so the two
    use the same sign convention. *)
Theorem defocus_kernel_sign_convention :
  forall kernel_phase field d,
    propagation.defocus_kernel kernel_phase d =
      (if Rle_dec d 0 then gmap cconj (gmap cexp (gmap (cscale (Rabs d)) kernel_phase))
       else gmap cexp (gmap (cscale (Rabs d)) kernel_phase)) /\
    (d <> 0%R ->
     propagation.propagate kernel_phase field d =
       convolve_kernel field (propagation.defocus_kernel kernel_phase d)).
Proof.
  intros kernel_phase field d. split.
  - unfold propagation.defocus_kernel.
    destruct (Rlt_dec 0 d); destruct (Rle_dec d 0); first [reflexivity | lra].
  - intros Hd. unfold propagation.propagate. rewrite single_slice_unfold_nonzero by exact Hd.
    reflexivity.
Qed.

Lemma defocus_kernel_sign_convention_witness :
  (1 <> 0)%R /\
  propagation.propagate [[(0, 1)%R]] [[(1, 0)%R]] 1%R =
    convolve_kernel [[(1, 0)%R]] (propagation.defocus_kernel [[(0, 1)%R]] 1%R).
Proof.
  split; [lra|].
  apply (proj2 (defocus_kernel_sign_convention [[(0, 1)%R]] [[(1, 0)%R]] 1%R)). lra.
Defined.

(* ------------------------------------------------------------------ *)
(** ** C5: broadcast reduction in the binary backward passes *)

(** C5: in the backward passes of [ComplexMul] and [ComplexDiv], when one
    operand has exactly one more axis than the other, the gradient of the
    operand with fewer axes is its elementwise backward product summed
    over axis 0 (the other gradient is its product); with equal ranks both
    gradients are the products, unsummed. *)
Theorem binary_backward_broadcast_reduction :
  forall input1 input2 grad_output,
    (length (shape input1) = S (length (shape input2)) ->
       operators.ComplexMul_backward input1 input2 grad_output =
         bind (mul_backward_products input1 input2 grad_output) reduce_second /\
       operators.ComplexDiv_backward input1 input2 grad_output =
         bind (div_backward_products input1 input2 grad_output) reduce_second) /\
    (length (shape input2) = S (length (shape input1)) ->
       operators.ComplexMul_backward input1 input2 grad_output =
         bind (mul_backward_products input1 input2 grad_output) reduce_first /\
       operators.ComplexDiv_backward input1 input2 grad_output =
         bind (div_backward_products input1 input2 grad_output) reduce_first) /\
    (length (shape input1) = length (shape input2) ->
       operators.ComplexMul_backward input1 input2 grad_output =
         mul_backward_products input1 input2 grad_output /\
       operators.ComplexDiv_backward input1 input2 grad_output =
         div_backward_products input1 input2 grad_output).
Proof.
  intros input1 input2 g.
  unfold operators.ComplexMul_backward, operators.ComplexDiv_backward,
         mul_backward_products, div_backward_products, reduce_first, reduce_second.
  split; [|split]; intros Hr; split; run_binds;
    repeat match goal with
           | |- context [(?a <? ?b)%nat] =>
               destruct (Nat.ltb_spec a b); try lia
           end; reflexivity.
Qed.

Lemma binary_backward_broadcast_reduction_witness :
  length (shape (mkT [1%nat; 2%nat] [1%R; 0%R])) = S (length (shape (mkT [2%nat] [1%R; 0%R]))) /\
  operators.ComplexMul_backward (mkT [1%nat; 2%nat] [1%R; 0%R]) (mkT [2%nat] [1%R; 0%R])
                                (mkT [1%nat; 2%nat] [1%R; 0%R]) =
    bind (mul_backward_products (mkT [1%nat; 2%nat] [1%R; 0%R]) (mkT [2%nat] [1%R; 0%R])
                                (mkT [1%nat; 2%nat] [1%R; 0%R])) reduce_second.
Proof.
  split; [reflexivity|].
  apply (proj1 (proj1 (binary_backward_broadcast_reduction (mkT [1%nat; 2%nat] [1%R; 0%R])
           (mkT [2%nat] [1%R; 0%R]) (mkT [1%nat; 2%nat] [1%R; 0%R])) eq_refl)).
Defined.

(* ------------------------------------------------------------------ *)
(** ** C3: which operators check the trailing axis *)

Lemma bcast_rev_same (a : list nat) : bcast_rev a a = Some a.
Proof. induction a as [|x a IH]; [reflexivity|]. simpl. rewrite IH, Nat.eqb_refl. reflexivity. Qed.

Lemma bcast_shape_same (a : list nat) : bcast_shape a a = Some a.
Proof. unfold bcast_shape. rewrite bcast_rev_same. simpl. rewrite rev_involutive. reflexivity. Qed.

Lemma select_last_ok t k m :
  last_dim (shape t) = Some m -> (k < m)%nat ->
  exists r, select_last t k = Ok r /\ shape r = removelast (shape t).
Proof.
  intros H Hk. unfold select_last. rewrite H.
  destruct (Nat.ltb_spec k m); [|lia]. eexists; split; reflexivity.
Qed.

Lemma zip_with_same f a b :
  shape a = shape b -> exists r, zip_with f a b = Ok r /\ shape r = shape a.
Proof.
  intros H. unfold zip_with. rewrite H, bcast_shape_same. eexists; split; [reflexivity|].
  simpl. congruence.
Qed.

Lemma update_last_ok t k g m :
  last_dim (shape t) = Some m -> (k < m)%nat ->
  exists r, update_last t k g = Ok r /\ shape r = shape t.
Proof.
  intros H Hk. unfold update_last. rewrite H.
  destruct (Nat.ltb_spec k m); [|lia]. eexists; split; reflexivity.
Qed.

Lemma assign_last_ok t k v m :
  last_dim (shape t) = Some m -> (k < m)%nat -> shape v = removelast (shape t) ->
  exists r, assign_last t k v = Ok r /\ shape r = shape t.
Proof.
  intros H Hk Hv. unfold assign_last.
  destruct (list_eq_dec Nat.eq_dec (shape v) (removelast (shape t))); [|contradiction].
  eapply update_last_ok; eauto.
Qed.

Lemma divide_last_ok t k v m :
  last_dim (shape t) = Some m -> (k < m)%nat -> shape v = removelast (shape t) ->
  exists r, divide_last t k v = Ok r /\ shape r = shape t.
Proof.
  intros H Hk Hv. unfold divide_last.
  destruct (list_eq_dec Nat.eq_dec (shape v) (removelast (shape t))); [|contradiction].
  eapply update_last_ok; eauto.
Qed.

Lemma stack_last2_ok a b :
  shape a = shape b -> exists r, stack_last2 a b = Ok r /\ shape r = shape a ++ [2%nat].
Proof.
  intros H. unfold stack_last2.
  destruct (list_eq_dec Nat.eq_dec (shape a) (shape b)); [|contradiction].
  eexists; split; reflexivity.
Qed.

Lemma sum_last_shape t m :
  last_dim (shape t) = Some m -> shape (sum_last t) = removelast (shape t).
Proof. intros H. unfold sum_last. rewrite H. reflexivity. Qed.

Lemma tmap_shape f t : shape (tmap f t) = shape t.
Proof. reflexivity. Qed.

Ltac solve_shape := cbn [shape tmap zeros_like] in *; congruence.

(** One step of a chain of binds over shape-checked operations. *)
Ltac shape_step m :=
  match goal with
  | |- context [bind (select_last ?t ?k) _] =>
      let r := fresh "r" in let E := fresh "E" in let S := fresh "S" in
      destruct (select_last_ok t k m) as [r [E S]]; [solve_shape | lia | rewrite E; cbn [bind]]
  | |- context [bind (zip_with ?f ?a ?b) _] =>
      let r := fresh "r" in let E := fresh "E" in let S := fresh "S" in
      destruct (zip_with_same f a b) as [r [E S]]; [solve_shape | rewrite E; cbn [bind]]
  | |- context [bind (assign_last ?t ?k ?v) _] =>
      let r := fresh "r" in let E := fresh "E" in let S := fresh "S" in
      destruct (assign_last_ok t k v m) as [r [E S]]; [solve_shape | lia | solve_shape | rewrite E; cbn [bind]]
  | |- context [assign_last ?t ?k ?v] =>
      let r := fresh "r" in let E := fresh "E" in let S := fresh "S" in
      destruct (assign_last_ok t k v m) as [r [E S]]; [solve_shape | lia | solve_shape | rewrite E]
  | |- context [stack_last2 ?a ?b] =>
      let r := fresh "r" in let E := fresh "E" in let S := fresh "S" in
      destruct (stack_last2_ok a b) as [r [E S]]; [solve_shape | rewrite E]
  | |- context [zip_with ?f ?a ?b] =>
      let r := fresh "r" in let E := fresh "E" in let S := fresh "S" in
      destruct (zip_with_same f a b) as [r [E S]]; [solve_shape | rewrite E]
  end.

(** C3 as stated fails: on a tensor whose trailing axis has size 3, conj,
    angle, exp, multiply_complex, division_complex and the ComplexConj
    forward pass all return a result instead of a shape error. *)
Lemma trailing_three_accepted :
  let t := mkT [3%nat] [1%R; 2%R; 3%R] in
  is_ok (operators.conj t) = true /\
  is_ok (operators.angle t) = true /\
  is_ok (operators.exp t) = true /\
  is_ok (operators.multiply_complex t t) = true /\
  is_ok (operators.division_complex t t) = true /\
  is_ok (operators.ComplexConj_forward t) = true.
Proof. repeat split; reflexivity. Qed.

Lemma bcast_rev_absorb a b r : bcast_rev a b = Some r -> bcast_rev r b = Some r.
Proof.
  revert b r. induction a as [|x a IH]; intros b r H.
  - simpl in H. injection H as <-. apply bcast_rev_same.
  - destruct b as [|y b].
    + simpl in H. injection H as <-. reflexivity.
    + simpl in H. destruct (bcast_rev a b) as [r'|] eqn:E; [|discriminate].
      pose proof (IH b r' E) as IH'.
      destruct (Nat.eqb_spec x y) as [<-|Hxy].
      * injection H as <-. simpl. rewrite IH', Nat.eqb_refl. reflexivity.
      * destruct (Nat.eqb_spec x 1) as [->|Hx1].
        -- injection H as <-. simpl. rewrite IH', Nat.eqb_refl. reflexivity.
        -- destruct (Nat.eqb_spec y 1) as [->|Hy1]; [|discriminate].
           injection H as <-. simpl. rewrite IH'. apply Nat.eqb_neq in Hx1. rewrite Hx1.
           reflexivity.
Qed.

(** Broadcasting the broadcast shape of [a] and [b] with [b] again changes nothing. *)
Lemma bcast_shape_absorb a b sh : bcast_shape a b = Some sh -> bcast_shape sh b = Some sh.
Proof.
  unfold bcast_shape. destruct (bcast_rev (rev a) (rev b)) as [r|] eqn:E; [|discriminate].
  simpl. intros H. injection H as <-. rewrite rev_involutive, (bcast_rev_absorb _ _ _ E).
  reflexivity.
Qed.

Lemma zip_with_bcast f a b sh :
  bcast_shape (shape a) (shape b) = Some sh -> exists r, zip_with f a b = Ok r /\ shape r = sh.
Proof. intros H. unfold zip_with. rewrite H. eexists; split; reflexivity. Qed.

Ltac bc_rw x := match goal with S : shape x = _ |- _ => rewrite S end.

(** One step of a chain of binds over two operands whose leading shapes
    broadcast to [sh]. *)
Ltac bc_step m m' sh Hb :=
  match goal with
  | |- context [bind (select_last ?x ?k) _] =>
      let r := fresh "r" in let E := fresh "E" in let S := fresh "S" in
      first [ destruct (select_last_ok x k m) as [r [E S]]; [assumption | lia | rewrite E; cbn [bind]]
            | destruct (select_last_ok x k m') as [r [E S]]; [assumption | lia | rewrite E; cbn [bind]] ]
  | |- context [bind (zip_with ?f ?a ?b) _] =>
      let r := fresh "r" in let E := fresh "E" in let S := fresh "S" in let Hz := fresh "Hz" in
      assert (Hz : bcast_shape (shape a) (shape b) = Some sh)
        by (bc_rw a; bc_rw b;
            first [exact Hb | apply bcast_shape_same | exact (bcast_shape_absorb _ _ _ Hb)]);
      destruct (zip_with_bcast f a b sh Hz) as [r [E S]]; rewrite E; cbn [bind]
  end.

(** C3 (amended): [abs] and the forward passes of ComplexMul, ComplexDiv,
    ComplexAbs, ComplexAbs2 and ComplexExp fail whenever an argument's
    trailing axis is not of size 2: an IndexError for a 0-d tensor (its
    empty shape has no [shape[-1]]), an AssertionError otherwise; the
    error is that of the first malformed argument. The primitives conj,
    angle and exp do not check, and return a result for every trailing
    axis of size at least 2; so do multiply_complex and division_complex
    for every two arguments with trailing axes of size at least 2 whose
    leading shapes broadcast (to [sh]; the result has shape [sh ++ [2]]). *)
Theorem complex_shape_checks :
  forall t u,
    (forall e,
       ((shape t = [] /\ e = IndexError) \/
        (exists m, last_dim (shape t) = Some m /\ m <> 2%nat /\ e = AssertionError)) ->
       operators.abs t = Err e /\
       operators.ComplexMul_forward t u = Err e /\
       operators.ComplexDiv_forward t u = Err e /\
       operators.ComplexAbs_forward t = Err e /\
       operators.ComplexAbs2_forward t = Err e /\
       operators.ComplexExp_forward t = Err e /\
       is_ok (operators.ComplexMul_forward u t) = false /\
       is_ok (operators.ComplexDiv_forward u t) = false /\
       (last_dim (shape u) = Some 2%nat ->
          operators.ComplexMul_forward u t = Err e /\ operators.ComplexDiv_forward u t = Err e)) /\
    (forall m, last_dim (shape t) = Some m -> (2 <= m)%nat ->
       is_ok (operators.conj t) = true /\
       is_ok (operators.angle t) = true /\
       is_ok (operators.exp t) = true) /\
    (forall m m' sh, last_dim (shape t) = Some m -> (2 <= m)%nat ->
       last_dim (shape u) = Some m' -> (2 <= m')%nat ->
       bcast_shape (removelast (shape t)) (removelast (shape u)) = Some sh ->
       (exists r, operators.multiply_complex t u = Ok r /\ shape r = sh ++ [2%nat]) /\
       (exists r, operators.division_complex t u = Ok r /\ shape r = sh ++ [2%nat])).
Proof.
  intros t u. split; [|split].
  - intros e He.
    assert (Et : operators.assert_complex t = Err e).
    { unfold operators.assert_complex. destruct He as [[Hs ->] | [m [Hm [Hm2 ->]]]].
      - rewrite Hs. reflexivity.
      - rewrite Hm. apply Nat.eqb_neq in Hm2. rewrite Hm2. reflexivity. }
    unfold operators.abs, operators.ComplexMul_forward, operators.ComplexDiv_forward,
           operators.ComplexAbs_forward, operators.ComplexAbs2_forward, operators.ComplexExp_forward.
    rewrite Et. cbn [bind].
    destruct (operators.assert_complex u) as [[]|e'] eqn:Eu; cbn [bind];
      repeat split; try reflexivity.
    all: match goal with Hu : last_dim _ = Some 2%nat |- _ =>
           unfold operators.assert_complex in Eu; rewrite Hu in Eu; discriminate end.
  - intros m H Hm.
    unfold operators.conj, operators.angle, operators.exp.
    repeat split.
    + destruct (update_last_ok t 1 (fun _ x => (x * -1)%R) m H) as [r [E _]]; [lia|].
      rewrite E; reflexivity.
    + repeat shape_step m; reflexivity.
    + repeat shape_step m; reflexivity.
  - intros m m' sh Ht Hm Hu Hm' Hb. split.
    + unfold operators.multiply_complex. repeat bc_step m m' sh Hb.
      match goal with |- exists _, stack_last2 ?a ?b = _ /\ _ =>
        destruct (stack_last2_ok a b) as [res [Eres Sres]]; [congruence|] end.
      rewrite Eres. eexists; split; [reflexivity|congruence].
    + unfold operators.division_complex. cbv zeta.
      assert (Hd : shape (sum_last (tmap (fun x => x ^ 2)%R u)) = removelast (shape u))
        by exact (sum_last_shape (tmap (fun x => x ^ 2)%R u) m' Hu).
      set (den := sum_last (tmap (fun x => x ^ 2)%R u)) in *.
      repeat bc_step m m' sh Hb.
      match goal with |- exists _, stack_last2 ?a ?b = _ /\ _ =>
        destruct (stack_last2_ok a b) as [res [Eres Sres]]; [congruence|] end.
      rewrite Eres. eexists; split; [reflexivity|congruence].
Qed.

Lemma complex_shape_checks_witness :
  operators.abs (mkT [3%nat] [1%R; 2%R; 3%R]) = Err AssertionError /\
  operators.ComplexMul_forward (mkT [2%nat] [0%R; 1%R]) (mkT [3%nat] [1%R; 2%R; 3%R]) =
    Err AssertionError /\
  operators.ComplexAbs_forward (mkT [] [5%R]) = Err IndexError /\
  (exists r, operators.multiply_complex (mkT [1%nat; 3%nat] [1%R; 2%R; 3%R])
               (mkT [2%nat; 2%nat] [1%R; 0%R; 0%R; 1%R]) = Ok r /\ shape r = [2%nat] ++ [2%nat]) /\
  (exists r, operators.division_complex (mkT [1%nat; 3%nat] [1%R; 2%R; 3%R])
               (mkT [2%nat; 2%nat] [1%R; 0%R; 0%R; 1%R]) = Ok r /\ shape r = [2%nat] ++ [2%nat]).
Proof.
  destruct (proj1 (complex_shape_checks (mkT [3%nat] [1%R; 2%R; 3%R]) (mkT [2%nat] [0%R; 1%R]))
              AssertionError) as [A [_ [_ [_ [_ [_ [_ [_ M]]]]]]]].
  { right. exists 3%nat. split; [reflexivity|split; [lia|reflexivity]]. }
  destruct (proj1 (complex_shape_checks (mkT [] [5%R]) (mkT [2%nat] [0%R; 1%R])) IndexError)
    as [_ [_ [_ [B _]]]].
  { left. split; reflexivity. }
  split; [exact A|]. split; [exact (proj1 (M eq_refl))|]. split; [exact B|].
  apply (proj2 (proj2 (complex_shape_checks (mkT [1%nat; 3%nat] [1%R; 2%R; 3%R])
                         (mkT [2%nat; 2%nat] [1%R; 0%R; 0%R; 1%R]))) 3%nat 2%nat [2%nat]);
    try reflexivity; lia.
Defined.

(* ------------------------------------------------------------------ *)
(** ** C8: fftshift and ifftshift undo each other *)

Lemma roll_list_length {A} (s : Z) (l : list A) : length (roll_list s l) = length l.
Proof.
  unfold roll_list. destruct (Nat.eqb_spec (length l) 0); [reflexivity|].
  rewrite length_app, length_skipn, length_firstn. lia.
Qed.

Lemma roll_shift_bound (s : Z) (n : nat) : n <> 0%nat -> (Z.to_nat (s mod Z.of_nat n) < n)%nat.
Proof. intros Hn. pose proof (Z.mod_pos_bound s (Z.of_nat n) ltac:(lia)). lia. Qed.

Lemma roll_list_nth {A} (s : Z) (l : list A) (d : A) (i : nat) :
  (i < length l)%nat ->
  nth i (roll_list s l) d =
  nth ((i + (length l - Z.to_nat (s mod Z.of_nat (length l)))) mod length l) l d.
Proof.
  intros Hi. unfold roll_list.
  destruct (Nat.eqb_spec (length l) 0) as [|Hn]; [lia|].
  pose proof (roll_shift_bound s (length l) Hn) as Hk.
  set (n := length l) in *. set (k := Z.to_nat (s mod Z.of_nat n)) in *.
  destruct (Nat.lt_ge_cases i k).
  - rewrite app_nth1 by (rewrite length_skipn; lia). rewrite nth_skipn.
    f_equal. rewrite Nat.mod_small by lia. lia.
  - rewrite app_nth2 by (rewrite length_skipn; lia). rewrite length_skipn, nth_firstn. fold n.
    destruct (Nat.ltb_spec (i - (n - (n - k))) (n - k)); [|lia].
    f_equal. replace (i + (n - k))%nat with ((i - k) + 1 * n)%nat by lia.
    rewrite Nat.Div0.mod_add. rewrite Nat.mod_small by lia. lia.
Qed.

Lemma roll_list_nth2 {A} (s s' : Z) (l : list A) (d : A) (i : nat) :
  (i < length l)%nat ->
  nth i (roll_list s (roll_list s' l)) d =
  nth ((i + (length l - Z.to_nat (s mod Z.of_nat (length l)))
          + (length l - Z.to_nat (s' mod Z.of_nat (length l)))) mod length l) l d.
Proof.
  intros Hi. assert (Hn : length l <> 0%nat) by lia.
  rewrite roll_list_nth by (rewrite roll_list_length; exact Hi).
  rewrite roll_list_length.
  rewrite roll_list_nth by (apply Nat.mod_upper_bound; exact Hn).
  rewrite Nat.Div0.add_mod_idemp_l. reflexivity.
Qed.

Lemma roll_list_comm {A} (s s' : Z) (l : list A) :
  roll_list s (roll_list s' l) = roll_list s' (roll_list s l).
Proof.
  destruct l as [|x l0]; [reflexivity|].
  apply nth_ext with (d := x) (d' := x); [rewrite !roll_list_length; reflexivity|].
  intros i Hi. rewrite !roll_list_length in Hi.
  rewrite !roll_list_nth2 by exact Hi.
  f_equal. f_equal. lia.
Qed.

Lemma roll_list_inv {A} (s : Z) (l : list A) : roll_list (- s) (roll_list s l) = l.
Proof.
  destruct l as [|x l0]; [reflexivity|].
  set (l := x :: l0).
  assert (Hn : length l <> 0%nat) by (simpl; lia).
  apply nth_ext with (d := x) (d' := x); [rewrite !roll_list_length; reflexivity|].
  intros i Hi. rewrite !roll_list_length in Hi.
  rewrite roll_list_nth by (rewrite roll_list_length; exact Hi).
  rewrite roll_list_length.
  rewrite roll_list_nth by (apply Nat.mod_upper_bound; exact Hn).
  rewrite Nat.Div0.add_mod_idemp_l.
  set (n := length l) in *.
  pose proof (Z.mod_pos_bound s (Z.of_nat n) ltac:(lia)) as Hb.
  destruct (Z.eq_dec (s mod Z.of_nat n) 0) as [E|E].
  - rewrite (Z_mod_zero_opp_full _ _ E), E.
    match goal with |- nth (?e mod n) _ _ = _ => replace e with (i + 2 * n)%nat by lia end.
    rewrite Nat.Div0.mod_add, Nat.mod_small by lia. reflexivity.
  - rewrite (Z_mod_nz_opp_full _ _ E).
    match goal with |- nth (?e mod n) _ _ = _ => replace e with (i + 1 * n)%nat by lia end.
    rewrite Nat.Div0.mod_add, Nat.mod_small by lia. reflexivity.
Qed.

Lemma roll_list_map {A B} (f : A -> B) (s : Z) (l : list A) :
  roll_list s (map f l) = map f (roll_list s l).
Proof.
  unfold roll_list. rewrite length_map.
  destruct (Nat.eqb_spec (length l) 0); [reflexivity|].
  rewrite map_app, skipn_map, firstn_map. reflexivity.
Qed.

Lemma roll_at_comm {A} (a b : nat) (s s' : Z) (t : nd A) :
  roll_at a s (roll_at b s' t) = roll_at b s' (roll_at a s t).
Proof.
  revert b t. induction a as [|a IH]; intros [|b] [x|xs]; simpl; try reflexivity.
  - f_equal. apply roll_list_comm.
  - f_equal. apply roll_list_map.
  - f_equal. symmetry. apply roll_list_map.
  - f_equal. rewrite !map_map. apply map_ext. intros t. apply IH.
Qed.

Lemma roll_at_inv {A} (ax : nat) (s : Z) (t : nd A) : roll_at ax (- s) (roll_at ax s t) = t.
Proof.
  revert t. induction ax as [|ax IH]; intros [x|xs]; simpl; try reflexivity.
  - f_equal. apply roll_list_inv.
  - f_equal. rewrite map_map. erewrite map_ext; [apply map_id|]. intros t. apply IH.
Qed.

Lemma roll_apply_rolls_comm {A} (ax : nat) (s : Z) (ops : list (nat * Z)) (t : nd A) :
  roll_at ax s (apply_rolls ops t) = apply_rolls ops (roll_at ax s t).
Proof.
  revert t. induction ops as [|o ops IH]; intros t; [reflexivity|].
  simpl. rewrite IH, roll_at_comm. reflexivity.
Qed.

Lemma apply_rolls_inv {A} (ops : list (nat * Z)) (t : nd A) :
  apply_rolls (invert_rolls ops) (apply_rolls ops t) = t.
Proof.
  revert t. induction ops as [|o ops IH]; intros t; [reflexivity|].
  simpl. rewrite roll_apply_rolls_comm, roll_at_inv. apply IH.
Qed.

Lemma invert_rolls_involutive (ops : list (nat * Z)) : invert_rolls (invert_rolls ops) = ops.
Proof.
  unfold invert_rolls. rewrite map_map. erewrite map_ext; [apply map_id|].
  intros [ax s]. simpl. rewrite Z.opp_involutive. reflexivity.
Qed.

Lemma resolve_valid (rank : nat) (a : Z) :
  valid_axis rank a -> operators.resolve_axis rank a = Ok (axis_index rank a).
Proof.
  unfold valid_axis, operators.resolve_axis, axis_index. intros [H1 H2].
  destruct (Z.leb_spec 0 a); simpl.
  - destruct (Z.ltb_spec a (Z.of_nat rank)); [reflexivity|lia].
  - destruct (Z.leb_spec (- Z.of_nat rank) a); [|lia].
    destruct (Z.ltb_spec a 0); [reflexivity|lia].
Qed.

Lemma roll_loop_plan {A} (shift : nat -> Z) (axs : list Z) (sh : list nat) (b : nd A) :
  Forall (valid_axis (length sh)) axs ->
  operators.roll_loop shift axs (mkND sh b) = Ok (mkND sh (apply_rolls (roll_plan shift sh axs) b)).
Proof.
  revert b. induction axs as [|a axs IH]; intros b Hv; [reflexivity|].
  inversion Hv as [|? ? Ha Hrest]; subst.
  simpl. rewrite (resolve_valid _ _ Ha). cbn [bind]. apply IH. exact Hrest.
Qed.

Lemma roll_plan_neg (sh : list nat) (axs : list Z) :
  roll_plan (fun n => (-1 * Z.of_nat (n / 2))%Z) sh axs =
  invert_rolls (roll_plan (fun n => Z.of_nat (n / 2)) sh axs).
Proof.
  unfold roll_plan, invert_rolls. rewrite map_map. apply map_ext. intros a. simpl.
  f_equal; lia.
Qed.

(** C8: for every tensor and every list (or single value) of valid axes,
    fftshift followed by ifftshift over the same axes returns the tensor
    exactly, and so does ifftshift followed by fftshift (for axes of any
    length, even ones included). *)
Theorem fftshift_ifftshift_roundtrip :
  forall (A : Type) (t : ndtensor A) (axes : operators.axes_arg) (axs : list Z),
    operators.atleast_1d axes = Ok axs ->
    Forall (valid_axis (length (nd_shape t))) axs ->
    (r <- operators.fftshift t axes ;; operators.ifftshift r axes) = Ok t /\
    (r <- operators.ifftshift t axes ;; operators.fftshift r axes) = Ok t.
Proof.
  intros A [sh b] axes axs Hax Hv. simpl in Hv.
  unfold operators.fftshift, operators.ifftshift. rewrite Hax. cbn [bind].
  rewrite !roll_loop_plan by exact Hv. cbn [bind]. rewrite !roll_loop_plan by exact Hv.
  rewrite roll_plan_neg. split.
  - rewrite apply_rolls_inv. reflexivity.
  - rewrite <- (invert_rolls_involutive (roll_plan (fun n => Z.of_nat (n / 2)) sh axs)) at 1.
    rewrite apply_rolls_inv. reflexivity.
Qed.

Lemma fftshift_ifftshift_roundtrip_witness :
  operators.atleast_1d (operators.AxesList [0%Z; (-1)%Z]) = Ok [0%Z; (-1)%Z] /\
  Forall (valid_axis 2) [0%Z; (-1)%Z] /\
  (r <- operators.fftshift (mkND [2%nat; 3%nat] (Arr [Arr [Scalar 1; Scalar 2; Scalar 3];
                                                      Arr [Scalar 4; Scalar 5; Scalar 6]]))
                           (operators.AxesList [0%Z; (-1)%Z]) ;;
   operators.ifftshift r (operators.AxesList [0%Z; (-1)%Z])) =
  Ok (mkND [2%nat; 3%nat] (Arr [Arr [Scalar 1; Scalar 2; Scalar 3]; Arr [Scalar 4; Scalar 5; Scalar 6]])).
Proof.
  assert (Hv : Forall (valid_axis 2) [0%Z; (-1)%Z])
    by (repeat constructor; unfold valid_axis; simpl; lia).
  split; [reflexivity|]. split; [exact Hv|].
  exact (proj1 (fftshift_ifftshift_roundtrip nat (mkND [2%nat; 3%nat] (Arr [Arr [Scalar 1; Scalar 2; Scalar 3]; Arr [Scalar 4; Scalar 5; Scalar 6]])) (operators.AxesList [0%Z; (-1)%Z]) [0%Z; (-1)%Z] eq_refl Hv)).
Defined.

(* ------------------------------------------------------------------ *)
(** ** C4: the backward rule of ComplexAbs *)

Lemma numel_app2 (sh : list nat) : numel (sh ++ [2%nat]) = (numel sh * 2)%nat.
Proof. induction sh as [|n sh IH]; simpl; [reflexivity|]. rewrite IH. lia. Qed.

Lemma last_dim_app2 (sh : list nat) : last_dim (sh ++ [2%nat]) = Some 2%nat.
Proof.
  unfold last_dim. destruct (sh ++ [2%nat]) eqn:E; [destruct sh; discriminate|].
  rewrite <- E. rewrite last_last. reflexivity.
Qed.

Lemma ravel_unravel (sh : list nat) (i : nat) :
  (i < numel sh)%nat -> ravel sh (unravel sh i) = i.
Proof.
  revert i. induction sh as [|n sh IH]; intros i Hi; simpl in *; [lia|].
  set (N := numel sh) in *.
  assert (HN : N <> 0%nat) by (intros E; rewrite E in Hi; lia).
  assert (Hq : (i / N < n)%nat) by (apply Nat.Div0.div_lt_upper_bound; lia).
  rewrite (Nat.mod_small (i / N) n Hq).
  rewrite IH by (apply Nat.mod_upper_bound; exact HN).
  pose proof (Nat.div_mod_eq i N). lia.
Qed.

Lemma source_index_same (sh : list nat) (i : nat) :
  (i < numel sh)%nat -> source_index sh sh i = i.
Proof. intros Hi. unfold source_index. rewrite Nat.sub_diag. apply ravel_unravel, Hi. Qed.

Lemma nth_map_seq {A} (f : nat -> A) (n j : nat) (d : A) :
  (j < n)%nat -> nth j (map f (seq 0 n)) d = f j.
Proof.
  intros Hj. rewrite nth_indep with (d' := f 0%nat) by (rewrite length_map, length_seq; exact Hj).
  rewrite map_nth, seq_nth by exact Hj. reflexivity.
Qed.

Lemma nth_map_lt {A B} (f : A -> B) (l : list A) (k : nat) (d : B) (d' : A) :
  (k < length l)%nat -> nth k (map f l) d = f (nth k l d').
Proof.
  intros Hk. rewrite nth_indep with (d' := f d') by (rewrite length_map; exact Hk).
  apply map_nth.
Qed.

Lemma length_interleave (a b : list R) :
  length a = length b ->
  length (flat_map (fun p => [fst p; snd p]) (combine a b)) = (length a * 2)%nat.
Proof.
  revert b. induction a as [|x a IH]; intros [|y b] H; simpl in *; try lia.
  rewrite IH by lia. lia.
Qed.

Lemma nth_interleave (a b : list R) (j : nat) (d : R) :
  length a = length b -> (j < length a)%nat ->
  nth (j * 2) (flat_map (fun p => [fst p; snd p]) (combine a b)) d = nth j a d /\
  nth (j * 2 + 1) (flat_map (fun p => [fst p; snd p]) (combine a b)) d = nth j b d.
Proof.
  revert b j. induction a as [|x a IH]; intros [|y b] j H Hj; simpl in *; try lia.
  destruct j as [|j]; [split; reflexivity|].
  apply IH; lia.
Qed.

(** Cell-level descriptions of the tensor operations on well-formed
    tensors. *)
Lemma select_last_cells t k m :
  last_dim (shape t) = Some m -> (k < m)%nat ->
  exists r, select_last t k = Ok r /\ shape r = removelast (shape t) /\
    length (data r) = numel (shape r) /\
    forall j, (j < numel (shape r))%nat -> nth j (data r) 0%R = nth (j * m + k) (data t) 0%R.
Proof.
  intros H Hk. unfold select_last. rewrite H.
  destruct (Nat.ltb_spec k m); [|lia]. eexists; split; [reflexivity|].
  simpl. split; [reflexivity|]. split; [rewrite length_map, length_seq; reflexivity|].
  intros j Hj. apply nth_map_seq with (f := fun j => nth (j * m + k) (data t) 0%R). exact Hj.
Qed.

Lemma zip_with_cells f a b :
  shape a = shape b ->
  exists r, zip_with f a b = Ok r /\ shape r = shape a /\
    length (data r) = numel (shape r) /\
    forall j, (j < numel (shape r))%nat ->
      nth j (data r) 0%R = f (nth j (data a) 0%R) (nth j (data b) 0%R).
Proof.
  intros H. unfold zip_with. rewrite H, bcast_shape_same.
  eexists; split; [reflexivity|]. simpl. split; [congruence|].
  split; [rewrite length_map, length_seq; reflexivity|].
  intros j Hj. rewrite nth_map_seq by exact Hj.
  rewrite <- H, !source_index_same by congruence. reflexivity.
Qed.

Lemma stack_last2_cells a b :
  shape a = shape b -> length (data a) = numel (shape a) -> length (data b) = numel (shape b) ->
  exists r, stack_last2 a b = Ok r /\ shape r = shape a ++ [2%nat] /\
    length (data r) = numel (shape r) /\
    forall j, (j < numel (shape a))%nat ->
      nth (j * 2) (data r) 0%R = nth j (data a) 0%R /\
      nth (j * 2 + 1) (data r) 0%R = nth j (data b) 0%R.
Proof.
  intros H La Lb. unfold stack_last2.
  destruct (list_eq_dec Nat.eq_dec (shape a) (shape b)); [|contradiction].
  eexists; split; [reflexivity|]. simpl. split; [reflexivity|].
  split; [rewrite length_interleave, numel_app2; congruence|].
  intros j Hj. apply nth_interleave; congruence.
Qed.

Lemma select_last_at t k m sh :
  shape t = sh ++ [m] -> (k < m)%nat ->
  exists r, select_last t k = Ok r /\ shape r = sh /\ length (data r) = numel sh /\
    forall j, (j < numel sh)%nat -> nth j (data r) 0%R = nth (j * m + k) (data t) 0%R.
Proof.
  intros H Hk.
  assert (L : last_dim (shape t) = Some m).
  { unfold last_dim. rewrite H. destruct (sh ++ [m]) eqn:E; [destruct sh; discriminate|].
    rewrite <- E, last_last. reflexivity. }
  destruct (select_last_cells t k m L Hk) as [r [E [S [Len C]]]].
  rewrite H, removelast_last in S. rewrite S in Len, C. exists r; auto.
Qed.

Lemma zip_with_at f a b sh :
  shape a = sh -> shape b = sh ->
  exists r, zip_with f a b = Ok r /\ shape r = sh /\ length (data r) = numel sh /\
    forall j, (j < numel sh)%nat ->
      nth j (data r) 0%R = f (nth j (data a) 0%R) (nth j (data b) 0%R).
Proof.
  intros Ha Hb. destruct (zip_with_cells f a b ltac:(congruence)) as [r [E [S [Len C]]]].
  rewrite S, Ha in *. exists r; auto.
Qed.

Lemma stack_last2_at a b sh :
  shape a = sh -> shape b = sh -> length (data a) = numel sh -> length (data b) = numel sh ->
  exists r, stack_last2 a b = Ok r /\ shape r = sh ++ [2%nat] /\
    length (data r) = (numel sh * 2)%nat /\
    (forall j, (j < numel sh)%nat -> nth (j * 2) (data r) 0%R = nth j (data a) 0%R) /\
    (forall j, (j < numel sh)%nat -> nth (j * 2 + 1) (data r) 0%R = nth j (data b) 0%R).
Proof.
  intros Ha Hb La Lb.
  destruct (stack_last2_cells a b ltac:(congruence) ltac:(congruence) ltac:(congruence))
    as [r [E [S [Len C]]]].
  rewrite S, Ha, numel_app2 in *. exists r; repeat split; auto; intros j Hj; apply C; exact Hj.
Qed.

Lemma nth_tmap f t j :
  (j < length (data t))%nat -> nth j (data (tmap f t)) 0%R = f (nth j (data t) 0%R).
Proof. intros Hj. apply nth_map_lt, Hj. Qed.

(** C4: on a complex tensor [z] of shape [sh ++ [2]] and an output gradient
    [g] of shape [sh] (the shape of the forward output), the backward rule of
    ComplexAbs succeeds and returns, at every position [j], the complex
    number [0.5 * (cos t, sin t) * (g_j, 0)] with [t] the angle
    [atan2 (Im z_j) (Re z_j)] of [z_j]: the factor 0.5 is there. *)
Theorem abs_backward_half_phase (z g : tensor) (sh : list nat)
  (Hz : shape z = sh ++ [2%nat]) (Hzl : length (data z) = numel (shape z))
  (Hg : shape g = sh) (Hgl : length (data g) = numel sh) :
  exists r, operators.ComplexAbs_backward z g = Ok r /\ shape r = sh ++ [2%nat] /\
    length (data r) = numel (shape r) /\
    forall j, (j < numel sh)%nat ->
      let th := atan2 (nth (j * 2 + 1) (data z) 0%R) (nth (j * 2) (data z) 0%R) in
      (nth (j * 2) (data r) 0%R, nth (j * 2 + 1) (data r) 0%R) =
      cscale 0.5 (cmul (cos th, sin th) (nth j (data g) 0%R, 0%R)).
Proof.
  unfold operators.ComplexAbs_backward, operators.stack_at.
  rewrite Nat.eqb_refl.
  assert (Lz0 : length (data (zeros_like g)) = numel sh)
    by (unfold zeros_like, tmap; simpl; rewrite length_map; exact Hgl).
  destruct (stack_last2_at g (zeros_like g) sh Hg Hg Hgl Lz0)
    as [GI [E1 [S1 [L1 [C1a C1b]]]]].
  rewrite E1; cbn [bind]. unfold operators.angle.
  destruct (select_last_at z 1 2 sh Hz ltac:(lia)) as [IM [E2 [S2 [L2 C2]]]].
  rewrite E2; cbn [bind].
  destruct (select_last_at z 0 2 sh Hz ltac:(lia)) as [RE [E3 [S3 [L3 C3]]]].
  rewrite E3; cbn [bind].
  destruct (zip_with_at atan2 IM RE sh S2 S3) as [PH [E4 [S4 [L4 C4]]]].
  rewrite E4; cbn [bind].
  assert (Sc : shape (tmap cos PH) = sh) by exact S4.
  assert (Ss : shape (tmap sin PH) = sh) by exact S4.
  assert (Lc : length (data (tmap cos PH)) = numel sh) by (simpl; rewrite length_map; exact L4).
  assert (Ls : length (data (tmap sin PH)) = numel sh) by (simpl; rewrite length_map; exact L4).
  rewrite Sc, Hg, Nat.eqb_refl.
  destruct (stack_last2_at _ _ sh Sc Ss Lc Ls) as [PI [E5 [S5 [L5 [C5a C5b]]]]].
  rewrite E5; cbn [bind]. unfold operators.multiply_complex.
  destruct (select_last_at PI 0 2 sh S5 ltac:(lia)) as [a0 [Ea0 [Sa0 [La0 Ca0]]]].
  rewrite Ea0; cbn [bind].
  destruct (select_last_at GI 0 2 sh S1 ltac:(lia)) as [b0 [Eb0 [Sb0 [Lb0 Cb0]]]].
  rewrite Eb0; cbn [bind].
  destruct (zip_with_at Rmult a0 b0 sh Sa0 Sb0) as [p [Ep [Sp [Lp Cp]]]].
  rewrite Ep; cbn [bind].
  destruct (select_last_at PI 1 2 sh S5 ltac:(lia)) as [a1 [Ea1 [Sa1 [La1 Ca1]]]].
  rewrite Ea1; cbn [bind].
  destruct (select_last_at GI 1 2 sh S1 ltac:(lia)) as [b1 [Eb1 [Sb1 [Lb1 Cb1]]]].
  rewrite Eb1; cbn [bind].
  destruct (zip_with_at Rmult a1 b1 sh Sa1 Sb1) as [q [Eq [Sq [Lq Cq]]]].
  rewrite Eq; cbn [bind].
  destruct (zip_with_at Rminus p q sh Sp Sq) as [re [Ere [Sre [Lre Cre]]]].
  rewrite Ere; cbn [bind].
  destruct (zip_with_at Rmult a0 b1 sh Sa0 Sb1) as [u [Eu [Su [Lu Cu]]]].
  rewrite Eu; cbn [bind].
  destruct (zip_with_at Rmult a1 b0 sh Sa1 Sb0) as [v [Ev [Sv [Lv Cv]]]].
  rewrite Ev; cbn [bind].
  destruct (zip_with_at Rplus u v sh Su Sv) as [im [Eim [Sim [Lim Cim]]]].
  rewrite Eim; cbn [bind].
  destruct (stack_last2_at re im sh Sre Sim Lre Lim) as [G [EG [SG [LG [CGa CGb]]]]].
  rewrite EG; cbn [bind].
  eexists; split; [reflexivity|].
  split; [exact SG|]. split; [simpl; rewrite length_map, LG, SG, numel_app2; reflexivity|].
  intros j Hj.
  rewrite !nth_tmap by lia.
  rewrite CGa, CGb by exact Hj.
  rewrite Cre, Cim, Cp, Cq, Cu, Cv by exact Hj.
  rewrite Ca0, Ca1, Cb0, Cb1 by exact Hj.
  rewrite !Nat.add_0_r.
  rewrite C5a, C5b, C1a, C1b by exact Hj.
  rewrite !nth_tmap by lia.
  rewrite C4, C2, C3 by exact Hj.
  rewrite Nat.add_0_r.
  unfold zeros_like. rewrite nth_tmap by lia.
  unfold cscale, cmul; simpl. f_equal; ring.
Qed.

Lemma abs_backward_half_phase_witness :
  exists r, operators.ComplexAbs_backward (mkT [1%nat; 2%nat] [3; 4]%R) (mkT [1%nat] [2]%R) = Ok r.
Proof.
  destruct (abs_backward_half_phase (mkT [1%nat; 2%nat] [3; 4]%R) (mkT [1%nat] [2]%R) [1%nat]
              eq_refl eq_refl eq_refl eq_refl) as [r [E _]].
  exists r. exact E.
Defined.

(* ------------------------------------------------------------------ *)
(** ** C7: the defocus stack with the single offset 0 *)

Lemma cols_rect H W (g : grid) : rect H W g -> (0 < H)%nat -> cols g = W.
Proof.
  intros [Hl Hf] HH. destruct g as [|r g]; simpl in *; [lia|].
  inversion Hf; assumption.
Qed.

Lemma dft2_rect sgn nrm H W (x : grid) : rect H W x -> rect H W (dft2 sgn nrm x).
Proof.
  intros Hx. destruct H as [|H].
  - destruct Hx as [Hl _]. destruct x; [|discriminate]. split; [reflexivity|constructor].
  - pose proof (cols_rect _ _ _ Hx ltac:(lia)) as Hc. destruct Hx as [Hl _].
    unfold dft2, rows. rewrite Hl, Hc. split; [rewrite length_map, length_seq; reflexivity|].
    apply Forall_forall. intros r Hr. apply in_map_iff in Hr. destruct Hr as [k [<- _]].
    rewrite length_map, length_seq. reflexivity.
Qed.

Lemma cmul_one_r (z : C) : cmul z (1, 0)%R = z.
Proof. destruct z as [a b]. unfold cmul; simpl. f_equal; ring. Qed.

Lemma defocus_kernel_zero (kernel : grid) :
  propagation.defocus_kernel kernel 0%R = gmap (fun _ => (1, 0)%R) kernel.
Proof.
  unfold propagation.defocus_kernel, gmap.
  destruct (Rlt_dec 0 0) as [H|_]; [lra|].
  rewrite !map_map. apply map_ext. intros r. rewrite !map_map. apply map_ext. intros [a b].
  unfold cconj, cexp, cscale; simpl. rewrite Rabs_R0, !Rmult_0_l, exp_0, cos_0, sin_0.
  f_equal; ring.
Qed.

Lemma multiply_row_ones (r k : list C) :
  length r = length k ->
  map (fun p => cmul (fst p) (snd p)) (combine r (map (fun _ => (1, 0)%R) k)) = r.
Proof.
  revert k. induction r as [|z r IH]; intros [|c k] Hl; simpl in *; try lia; [reflexivity|].
  rewrite cmul_one_r, IH by lia. reflexivity.
Qed.

Lemma multiply_grid_ones H W (a k : grid) :
  rect H W a -> rect H W k -> multiply_grid a (gmap (fun _ => (1, 0)%R) k) = a.
Proof.
  intros [Ha Fa] [Hk Fk]. assert (Hl : length a = length k) by congruence. clear H Ha Hk.
  revert k Hl Fk. induction a as [|r a IH]; intros [|s k] Hl Fk; simpl in *; try lia; [reflexivity|].
  inversion Fa as [|? ? Hr Fa']; inversion Fk as [|? ? Hs Fk']; subst.
  unfold multiply_grid, gmap in *; simpl. rewrite multiply_row_ones by congruence.
  f_equal. apply IH; auto.
Qed.

Lemma grid_eta H W (g : grid) :
  rect H W g -> map (fun h => map (fun w => gget g h w) (seq 0 W)) (seq 0 H) = g.
Proof.
  intros [Hl Hf]. apply nth_ext with (d := []) (d' := []).
  { rewrite length_map, length_seq. congruence. }
  intros h Hh. rewrite length_map, length_seq in Hh. rewrite nth_map_seq by exact Hh.
  assert (Hr : length (nth h g []) = W).
  { rewrite Forall_forall in Hf. apply Hf, nth_In. lia. }
  apply nth_ext with (d := (0, 0)%R) (d' := (0, 0)%R).
  { rewrite length_map, length_seq. congruence. }
  intros w Hw. rewrite length_map, length_seq in Hw. rewrite nth_map_seq by exact Hw.
  reflexivity.
Qed.

Lemma stack_to_hwn_one H W (g : grid) :
  rect H W g -> propagation.stack_to_hwn H W [g] = map (map (fun c => [c])) g.
Proof.
  intros Hg. unfold propagation.stack_to_hwn.
  transitivity (map (map (fun c => [c])) (map (fun h => map (fun w => gget g h w) (seq 0 W)) (seq 0 H))).
  - rewrite map_map. apply map_ext. intros h. rewrite map_map. reflexivity.
  - rewrite (grid_eta H W g Hg). reflexivity.
Qed.

(** The forward pass with the single offset 0, for any field whose
    transform is inverted by [ifft2]. *)
Lemma defocus_zero_when_inverted H W (field kernel : grid) (dl : propagation.defocus_arg) :
  rect H W field -> rect H W kernel -> propagation.offsets dl = [0%R] ->
  ifft2 (fft2 field) = field ->
  fst (propagation.Defocus_forward field kernel dl) = map (map (fun c => [c])) field.
Proof.
  intros Hf Hk Hd Hinv. unfold propagation.Defocus_forward; simpl fst. rewrite Hd; simpl map.
  rewrite defocus_kernel_zero.
  assert (HF : rect H W (fft2 field)) by (apply dft2_rect; exact Hf).
  rewrite (multiply_grid_ones H W) by assumption. rewrite Hinv.
  destruct H as [|H].
  - destruct Hf as [Hl _]. destruct field; [reflexivity|discriminate].
  - assert (Hr : rows (fft2 field) = S H) by (destruct HF; assumption).
    rewrite Hr, (cols_rect _ _ _ HF) by lia. apply stack_to_hwn_one, Hf.
Qed.

(** Finite sums of complex numbers. *)
Lemma csum_app (l1 l2 : list C) : csum (l1 ++ l2) = cadd (csum l1) (csum l2).
Proof.
  induction l1 as [|z l1 IH]; simpl.
  - destruct (csum l2); unfold cadd; simpl; f_equal; ring.
  - rewrite IH. destruct z, (csum l1), (csum l2). unfold cadd; simpl; f_equal; ring.
Qed.

Lemma csum_flat_map {A} (l : list A) (g : A -> list C) :
  csum (flat_map g l) = csum (map (fun a => csum (g a)) l).
Proof. induction l as [|a l IH]; simpl; [reflexivity|]. rewrite csum_app, IH. reflexivity. Qed.

Lemma csumf_0 f : csumf 0 f = (0, 0)%R.
Proof. reflexivity. Qed.

Lemma csumf_S N f : csumf (S N) f = cadd (csumf N f) (f N).
Proof.
  unfold csumf. rewrite seq_S, map_app, csum_app. simpl.
  destruct (f N), (csum (map f (seq 0 N))). unfold cadd; simpl; f_equal; ring.
Qed.

Lemma csumf_shift N f : csumf (S N) f = cadd (f 0%nat) (csumf N (fun k => f (S k))).
Proof. unfold csumf. simpl. rewrite <- seq_shift, map_map. reflexivity. Qed.

Lemma csumf_ext N f g : (forall i, (i < N)%nat -> f i = g i) -> csumf N f = csumf N g.
Proof.
  intros H. unfold csumf. f_equal. apply map_ext_in. intros i Hi.
  apply in_seq in Hi. apply H. lia.
Qed.

Lemma csumf_add N f g :
  csumf N (fun i => cadd (f i) (g i)) = cadd (csumf N f) (csumf N g).
Proof.
  induction N as [|N IH]; [rewrite !csumf_0; unfold cadd; simpl; f_equal; ring|].
  rewrite !csumf_S, IH.
  destruct (csumf N f), (csumf N g), (f N), (g N). unfold cadd; simpl; f_equal; ring.
Qed.

Lemma csumf_cmul_l c N f : csumf N (fun i => cmul c (f i)) = cmul c (csumf N f).
Proof.
  induction N as [|N IH]; [rewrite !csumf_0; destruct c; unfold cmul; simpl; f_equal; ring|].
  rewrite !csumf_S, IH. destruct c, (csumf N f), (f N). unfold cadd, cmul; simpl; f_equal; ring.
Qed.

Lemma csumf_cmul_r c N f : csumf N (fun i => cmul (f i) c) = cmul (csumf N f) c.
Proof.
  induction N as [|N IH]; [rewrite !csumf_0; destruct c; unfold cmul; simpl; f_equal; ring|].
  rewrite !csumf_S, IH. destruct c, (csumf N f), (f N). unfold cadd, cmul; simpl; f_equal; ring.
Qed.

Lemma csumf_zero N : csumf N (fun _ => (0, 0)%R) = (0, 0)%R.
Proof.
  induction N as [|N IH]; [reflexivity|]. rewrite csumf_S, IH. unfold cadd; simpl; f_equal; ring.
Qed.

Lemma csumf_swap N M (f : nat -> nat -> C) :
  csumf N (fun i => csumf M (f i)) = csumf M (fun j => csumf N (fun i => f i j)).
Proof.
  induction N as [|N IH].
  - rewrite csumf_0. symmetry. rewrite (csumf_ext M _ (fun _ => (0, 0)%R)); [apply csumf_zero|].
    intros; reflexivity.
  - rewrite csumf_S, IH, <- csumf_add. apply csumf_ext. intros j _. rewrite csumf_S. reflexivity.
Qed.

Lemma csumf_delta N m f :
  (m < N)%nat -> csumf N (fun n => if (n =? m)%nat then f n else (0, 0)%R) = f m.
Proof.
  induction N as [|N IH]; intros Hm; [lia|]. rewrite csumf_S.
  destruct (Nat.eq_dec m N) as [->|Hne].
  - rewrite Nat.eqb_refl.
    rewrite (csumf_ext N _ (fun _ => (0, 0)%R)), csumf_zero.
    + destruct (f N). unfold cadd; simpl; f_equal; ring.
    + intros i Hi. destruct (Nat.eqb_spec i N); [lia|reflexivity].
  - rewrite IH by lia. destruct (Nat.eqb_spec N m); [lia|].
    destruct (f m). unfold cadd; simpl; f_equal; ring.
Qed.

Lemma cis_add a b : cmul (cis a) (cis b) = cis (a + b).
Proof. unfold cmul, cis; simpl. rewrite cos_plus, sin_plus. f_equal; ring. Qed.

Lemma cis_0 : cis 0 = (1, 0)%R.
Proof. unfold cis. rewrite cos_0, sin_0. reflexivity. Qed.

Lemma cis_2PI_int (m n : nat) : cis (2 * PI * (INR m - INR n)) = (1, 0)%R.
Proof.
  unfold cis. destruct (le_lt_dec n m) as [Hle|Hlt].
  - rewrite <- minus_INR by exact Hle.
    replace (2 * PI * INR (m - n))%R with (0 + 2 * INR (m - n) * PI)%R by ring.
    rewrite cos_period, sin_period, cos_0, sin_0. reflexivity.
  - replace (2 * PI * (INR m - INR n))%R with (- (0 + 2 * INR (n - m) * PI))%R
      by (rewrite minus_INR by lia; ring).
    rewrite cos_neg, sin_neg, cos_period, sin_period, cos_0, sin_0. f_equal; ring.
Qed.

Lemma cis_root_ne_1 (N m n : nat) :
  (m < N)%nat -> (n < N)%nat -> m <> n ->
  cis (2 * PI * (INR m - INR n) / INR N) <> (1, 0)%R.
Proof.
  intros Hm Hn Hne E. unfold cis in E. injection E as Hc Hs.
  assert (HN : (0 < INR N)%R) by (apply lt_0_INR; lia).
  pose proof PI_RGT_0 as HPI.
  apply sin_eq_0_0 in Hs. destruct Hs as [k Hk].
  assert (Hd : (2 * (INR m - INR n) = IZR k * INR N)%R).
  { apply (Rmult_eq_reg_l PI); [|lra].
    replace (PI * (2 * (INR m - INR n)))%R with (2 * PI * (INR m - INR n) / INR N * INR N)%R
      by (field; lra).
    rewrite Hk. ring. }
  assert (Hmr : (INR m < INR N)%R) by (apply lt_INR; exact Hm).
  assert (Hnr : (INR n < INR N)%R) by (apply lt_INR; exact Hn).
  pose proof (pos_INR m). pose proof (pos_INR n).
  assert (Hk1 : (IZR k < 2)%R) by nra.
  assert (Hk2 : (-2 < IZR k)%R) by nra.
  assert (Hz1 : (k < 2)%Z) by (apply lt_IZR; exact Hk1).
  assert (Hz2 : (-2 < k)%Z) by (apply lt_IZR; exact Hk2).
  assert (Hk3 : (k = -1 \/ k = 0 \/ k = 1)%Z) by lia.
  destruct Hk3 as [-> | [-> | ->]].
  - rewrite Hk in Hc. replace (IZR (-1) * PI)%R with (- PI)%R in Hc by (simpl; ring).
    rewrite cos_neg, cos_PI in Hc. lra.
  - simpl in Hd. apply Hne, INR_eq. lra.
  - rewrite Hk in Hc. replace (IZR 1 * PI)%R with PI in Hc by (simpl; ring).
    rewrite cos_PI in Hc. lra.
Qed.

Lemma csumf_one N : csumf N (fun _ => (1, 0)%R) = (INR N, 0)%R.
Proof.
  induction N as [|N IH]; [reflexivity|]. rewrite csumf_S, IH, S_INR.
  unfold cadd; simpl; f_equal; ring.
Qed.

(** The N-th roots of unity sum to N at the trivial root and to 0 at the
    others. *)
Lemma roots_sum (N m n : nat) :
  (m < N)%nat -> (n < N)%nat ->
  csumf N (fun k => cis (INR k * (2 * PI * (INR m - INR n) / INR N))) =
  if (m =? n)%nat then (INR N, 0)%R else (0, 0)%R.
Proof.
  intros Hm Hn. assert (HN : (0 < INR N)%R) by (apply lt_0_INR; lia).
  set (th := (2 * PI * (INR m - INR n) / INR N)%R).
  destruct (Nat.eqb_spec m n) as [<-|Hne].
  - rewrite <- csumf_one. apply csumf_ext. intros k _.
    unfold th. rewrite Rminus_diag. unfold Rdiv. rewrite Rmult_0_r, Rmult_0_l, Rmult_0_r.
    apply cis_0.
  - set (S := csumf N (fun k => cis (INR k * th))).
    assert (Hstep : cmul S (cis th) = csumf N (fun k => cis (INR (Datatypes.S k) * th))).
    { unfold S. rewrite <- csumf_cmul_r. apply csumf_ext. intros k _.
      rewrite cis_add, S_INR. f_equal. ring. }
    assert (Hlast : cis (INR N * th) = (1, 0)%R).
    { unfold th. replace (INR N * (2 * PI * (INR m - INR n) / INR N))%R
        with (2 * PI * (INR m - INR n))%R by (field; lra). apply cis_2PI_int. }
    assert (Hfirst : cis (INR 0 * th) = (1, 0)%R) by (simpl; rewrite Rmult_0_l; apply cis_0).
    pose proof (csumf_S N (fun k => cis (INR k * th))) as E1.
    rewrite csumf_shift in E1. fold S in E1. rewrite Hlast, Hfirst, <- Hstep in E1.
    pose proof (cis_root_ne_1 N m n Hm Hn Hne) as Hw. fold th in Hw.
    destruct S as [a b]. destruct (cis th) as [c d] eqn:Ew.
    unfold cadd, cmul in E1; simpl in E1. injection E1 as E1a E1b.
    assert (Ha : (a * ((c - 1) ^ 2 + d ^ 2) = 0)%R).
    { replace (a * ((c - 1) ^ 2 + d ^ 2))%R
        with ((c - 1) * (a * (c - 1) - b * d) + d * (a * d + b * (c - 1)))%R by ring.
      replace (a * (c - 1) - b * d)%R with 0%R by lra.
      replace (a * d + b * (c - 1))%R with 0%R by lra. ring. }
    assert (Hb : (b * ((c - 1) ^ 2 + d ^ 2) = 0)%R).
    { replace (b * ((c - 1) ^ 2 + d ^ 2))%R
        with ((c - 1) * (a * d + b * (c - 1)) - d * (a * (c - 1) - b * d))%R by ring.
      replace (a * (c - 1) - b * d)%R with 0%R by lra.
      replace (a * d + b * (c - 1))%R with 0%R by lra. ring. }
    assert (Hpos : ((c - 1) ^ 2 + d ^ 2)%R <> 0%R).
    { intros Z. apply Hw. rewrite ?Ew.
      pose proof (pow2_ge_0 (c - 1)). pose proof (pow2_ge_0 d).
      assert (Hc1 : ((c - 1) ^ 2 = 0)%R) by lra. assert (Hd1 : (d ^ 2 = 0)%R) by lra.
      rewrite <- Rsqr_pow2 in Hc1, Hd1. apply Rsqr_0_uniq in Hc1, Hd1. replace c with 1%R by lra. rewrite Hd1. reflexivity. }
    apply Rmult_integral in Ha, Hb.
    destruct Ha as [->|]; [|contradiction]. destruct Hb as [->|]; [|contradiction].
    reflexivity.
Qed.

Lemma cscale_1 (z : C) : cscale 1 z = z.
Proof. destruct z; unfold cscale; simpl; f_equal; ring. Qed.

Lemma cmul_assoc (a b c : C) : cmul (cmul a b) c = cmul a (cmul b c).
Proof. destruct a, b, c; unfold cmul; simpl; f_equal; ring. Qed.

Lemma sum4_swap H W (T : nat -> nat -> nat -> nat -> C) :
  csumf H (fun k1 => csumf W (fun k2 => csumf H (fun n1 => csumf W (fun n2 => T k1 k2 n1 n2)))) =
  csumf H (fun n1 => csumf W (fun n2 => csumf H (fun k1 => csumf W (fun k2 => T k1 k2 n1 n2)))).
Proof.
  etransitivity.
  { apply csumf_ext; intros k1 _.
    exact (csumf_swap W H (fun k2 n1 => csumf W (fun n2 => T k1 k2 n1 n2))). }
  etransitivity; [apply csumf_swap|].
  apply csumf_ext; intros n1 _.
  etransitivity.
  { apply csumf_ext; intros k1 _. exact (csumf_swap W W (fun k2 n2 => T k1 k2 n1 n2)). }
  apply csumf_swap.
Qed.

(** One entry of [ifft2 (fft2 x)], written with the entries [X] of [x]. *)
Lemma dft2_inverse_entry H W (X : nat -> nat -> C) m1 m2 :
  (m1 < H)%nat -> (m2 < W)%nat ->
  cscale (/ (INR H * INR W))
    (csumf H (fun k1 => csumf W (fun k2 =>
       cmul (cscale 1 (csumf H (fun n1 => csumf W (fun n2 =>
               cmul (X n1 n2)
                    (cis (-1 * 2 * PI * (INR (k1 * n1) / INR H + INR (k2 * n2) / INR W)))))))
            (cis (1 * 2 * PI * (INR (m1 * k1) / INR H + INR (m2 * k2) / INR W)))))) =
  X m1 m2.
Proof.
  intros Hm1 Hm2.
  assert (HH : INR H <> 0%R) by (apply not_0_INR; lia).
  assert (HW : INR W <> 0%R) by (apply not_0_INR; lia).
  set (th1 n1 := (2 * PI * (INR m1 - INR n1) / INR H)%R).
  set (th2 n2 := (2 * PI * (INR m2 - INR n2) / INR W)%R).
  set (s := (/ (INR H * INR W))%R).
  transitivity (cscale s (csumf H (fun k1 => csumf W (fun k2 => csumf H (fun n1 => csumf W (fun n2 =>
                  cmul (X n1 n2) (cmul (cis (INR k1 * th1 n1)) (cis (INR k2 * th2 n2))))))))).
  { f_equal. apply csumf_ext; intros k1 _; apply csumf_ext; intros k2 _.
    rewrite cscale_1, <- csumf_cmul_r. apply csumf_ext; intros n1 _.
    rewrite <- csumf_cmul_r. apply csumf_ext; intros n2 _.
    rewrite cmul_assoc, !cis_add. f_equal. f_equal. unfold th1, th2. rewrite !mult_INR.
    field. split; assumption. }
  rewrite sum4_swap.
  transitivity (cscale s (csumf H (fun n1 =>
                  if (n1 =? m1)%nat
                  then csumf W (fun n2 => if (n2 =? m2)%nat
                                          then cmul (X n1 n2) (INR H * INR W, 0)%R
                                          else (0, 0)%R)
                  else (0, 0)%R))).
  { f_equal. apply csumf_ext; intros n1 Hn1.
    transitivity (csumf W (fun n2 => cmul (X n1 n2)
                    (cmul (csumf H (fun k1 => cis (INR k1 * th1 n1)))
                          (csumf W (fun k2 => cis (INR k2 * th2 n2)))))).
    { apply csumf_ext; intros n2 _.
      rewrite <- csumf_cmul_r, <- csumf_cmul_l. apply csumf_ext; intros k1 _.
      rewrite <- csumf_cmul_l, <- csumf_cmul_l. reflexivity. }
    unfold th1, th2.
    destruct (Nat.eqb_spec n1 m1) as [->|Hne1].
    - apply csumf_ext; intros n2 Hn2.
      rewrite (roots_sum H m1 m1), (roots_sum W m2 n2) by assumption.
      rewrite Nat.eqb_refl. destruct (Nat.eqb_spec m2 n2) as [->|Hne2].
      + rewrite Nat.eqb_refl. destruct (X m1 n2); unfold cmul; simpl; f_equal; ring.
      + destruct (Nat.eqb_spec n2 m2); [lia|]. destruct (X m1 n2); unfold cmul; simpl; f_equal; ring.
    - rewrite <- (csumf_zero W). apply csumf_ext; intros n2 Hn2.
      rewrite (roots_sum H m1 n1) by assumption.
      destruct (Nat.eqb_spec m1 n1); [lia|].
      destruct (X n1 n2), (csumf W _); unfold cmul; simpl; f_equal; ring. }
  rewrite csumf_delta by exact Hm1. rewrite csumf_delta by exact Hm2.
  unfold s. destruct (X m1 m2). unfold cscale, cmul; simpl. f_equal; field; split; assumption.
Qed.

Lemma gget_table H W (f : nat -> nat -> C) k1 k2 :
  (k1 < H)%nat -> (k2 < W)%nat ->
  gget (map (fun k1 => map (fun k2 => f k1 k2) (seq 0 W)) (seq 0 H)) k1 k2 = f k1 k2.
Proof.
  intros H1 H2. unfold gget. rewrite nth_map_seq by exact H1. apply nth_map_seq, H2.
Qed.

Lemma dft2_entries sgn nrm H W (x : grid) :
  rect H W x -> (0 < H)%nat ->
  dft2 sgn nrm x =
  map (fun k1 => map (fun k2 =>
        cscale nrm (csumf H (fun n1 => csumf W (fun n2 =>
          cmul (gget x n1 n2)
               (cis (sgn * 2 * PI * (INR (k1 * n1) / INR H + INR (k2 * n2) / INR W)))))))
      (seq 0 W)) (seq 0 H).
Proof.
  intros Hx HH. unfold dft2, rows. rewrite (cols_rect H W x Hx HH).
  destruct Hx as [Hl _]. rewrite Hl.
  apply map_ext; intros k1; apply map_ext; intros k2. f_equal.
  rewrite csum_flat_map. reflexivity.
Qed.

(** The inverse transform undoes the forward one, in exact arithmetic. *)
Lemma ifft2_fft2 H W (x : grid) : rect H W x -> ifft2 (fft2 x) = x.
Proof.
  intros Hx. destruct (Nat.eq_dec H 0) as [->|HH].
  { destruct Hx as [Hl _]. destruct x; [reflexivity|discriminate]. }
  assert (HF : rect H W (fft2 x)) by (apply dft2_rect; exact Hx).
  assert (Hr : rows (fft2 x) = H) by (destruct HF; assumption).
  assert (Hc : cols (fft2 x) = W) by (apply (cols_rect H W); [exact HF|lia]).
  unfold ifft2 at 1. rewrite Hr, Hc.
  rewrite (dft2_entries 1 _ H W (fft2 x) HF) by lia.
  etransitivity; [|apply (grid_eta H W x Hx)].
  apply map_ext_in; intros m1 Hm1; apply map_ext_in; intros m2 Hm2.
  apply in_seq in Hm1, Hm2.
  rewrite <- (dft2_inverse_entry H W (gget x) m1 m2) by lia.
  f_equal. apply csumf_ext; intros k1 Hk1; apply csumf_ext; intros k2 Hk2. f_equal.
  unfold fft2. rewrite (dft2_entries (-1) 1 H W x Hx) by lia.
  apply (gget_table H W (fun k1 k2 => _)); assumption.
Qed.

(** C7: for every H x W field and every H x W kernel, the forward pass of
    the defocus stack with the defocus list [0.0] (a Python list or a
    tensor) returns, in exact arithmetic, the input field itself, as an
    (H, W, 1) stack whose single slice is the field. *)
Theorem defocus_zero_offset_identity H W (field kernel : grid) (dl : propagation.defocus_arg) :
  rect H W field -> rect H W kernel -> propagation.offsets dl = [0%R] ->
  fst (propagation.Defocus_forward field kernel dl) = map (map (fun c => [c])) field.
Proof.
  intros Hf Hk Hd. apply (defocus_zero_when_inverted H W); try assumption.
  apply (ifft2_fft2 H W), Hf.
Qed.

Lemma defocus_zero_offset_identity_witness :
  fst (propagation.Defocus_forward [[(1, 2)%R]] [[(0, 1)%R]] propagation.defocus_default) =
  [[[(1, 2)%R]]].
Proof.
  apply (defocus_zero_offset_identity 1 1).
  - split; [reflexivity|repeat constructor].
  - split; [reflexivity|repeat constructor].
  - reflexivity.
Defined.

(* ------------------------------------------------------------------ *)
(** ** C2: the order of the multislice steps *)

Lemma fold_left_ext_in {A B} (f g : A -> B -> A) (l : list B) (a : A) :
  (forall x b, In b l -> f x b = g x b) -> fold_left f l a = fold_left g l a.
Proof.
  revert a. induction l as [|b l IH]; intros a H; simpl; [reflexivity|].
  rewrite H by (left; reflexivity). apply IH. intros x c Hc. apply H. right; exact Hc.
Qed.

(** From two layers on, the code runs the steps in the stated order. *)
Lemma multislice_from_two_layers {F} (mul : F -> F -> F) (prop : F -> R -> F)
  (L : nat) (s : R) (obj : nat -> F) (field_in : option F) :
  (2 <= L)%nat ->
  propagation.Multislice_forward mul prop L s obj field_in =
  propagation.multislice_stated mul prop L s obj field_in.
Proof.
  intros HL. unfold propagation.Multislice_forward, propagation.multislice_stated.
  assert (H1 : (1 <? L)%nat = true) by (apply Nat.ltb_lt; lia).
  assert (Hstep : forall x i, In i (seq 1 (L - 1)) ->
            (let field := mul x (obj i) in
             if (i <? L - 1)%nat then prop field s
             else prop field (-1 * propagation.distance_to_center L s)%R) =
            prop (mul x (obj i))
                 (if (S i <? L)%nat then s else (- propagation.distance_to_center L s)%R)).
  { intros x i Hi. apply in_seq in Hi. simpl.
    destruct (Nat.ltb_spec i (L - 1)), (Nat.ltb_spec (S i) L); try lia; [reflexivity|].
    f_equal. ring. }
  destruct field_in as [f|].
  - replace (seq 0 L) with (0%nat :: seq 1 (L - 1)) by (destruct L; [lia|simpl; f_equal; f_equal; lia]).
    simpl fold_left. rewrite H1. apply fold_left_ext_in, Hstep.
  - rewrite H1. apply fold_left_ext_in, Hstep.
Qed.

(** With a single layer, the code propagates by [s] where the stated order
    propagates by [-(1/2 - 1/2) s]. *)
Lemma multislice_one_layer {F} (mul : F -> F -> F) (prop : F -> R -> F)
  (s : R) (obj : nat -> F) (f : F) :
  propagation.Multislice_forward mul prop 1 s obj (Some f) = prop (mul f (obj 0%nat)) s /\
  propagation.multislice_stated mul prop 1 s obj (Some f) =
  prop (mul f (obj 0%nat)) (- propagation.distance_to_center 1 s)%R.
Proof. split; reflexivity. Qed.

Lemma conv_1x1 (z k : C) : convolve_kernel [[z]] [[k]] = [[cmul z k]].
Proof.
  unfold convolve_kernel, ifft2, fft2, dft2. simpl.
  replace (-1 * 2 * PI * (0 / 1 + 0 / 1))%R with 0%R by field.
  replace (1 * 2 * PI * (0 / 1 + 0 / 1))%R with 0%R by field.
  rewrite cis_0. unfold gget, multiply_grid; simpl.
  destruct z, k; unfold cscale, cadd, cmul; simpl. f_equal; f_equal; f_equal; field.
Qed.

(** C2: with a single layer ([L = 1], spacing [s = 1], kernel phase
    [i pi/2], a transparent layer and the input field 1), the code does not
    recentre: it propagates the field by [s = 1] and returns [i], where the
    stated order propagates by [-(1/2 - 1/2) s = 0] and returns the field
    1 unchanged. From two layers on the two orders agree
    ([multislice_from_two_layers]). *)
Theorem multislice_single_layer_not_recentred :
  let kp := [[(0, PI / 2)%R]] in
  let obj := fun _ : nat => [[(1, 0)%R]] in
  let f := [[(1, 0)%R]] in
  propagation.MultislicePropagation_forward kp 1 1 obj (Some f) = [[(0, 1)%R]] /\
  propagation.multislice_stated complex_mul (propagation.propagate kp) 1 1 obj (Some f) =
  [[(1, 0)%R]] /\
  propagation.MultislicePropagation_forward kp 1 1 obj (Some f) <>
  propagation.multislice_stated complex_mul (propagation.propagate kp) 1 1 obj (Some f).
Proof.
  intros kp obj f.
  assert (Hcode : propagation.MultislicePropagation_forward kp 1 1 obj (Some f) = [[(0, 1)%R]]).
  { unfold propagation.MultislicePropagation_forward.
    rewrite (proj1 (multislice_one_layer _ _ _ _ _)).
    unfold propagation.propagate. rewrite single_slice_unfold_nonzero by lra. simpl fst.
    unfold propagation.defocus_kernel. destruct (Rlt_dec 0 1) as [_|n]; [|lra].
    unfold complex_mul, multiply_grid, gmap, kp, obj, f; simpl. rewrite conv_1x1.
    unfold cexp, cscale, cmul; simpl. rewrite Rabs_R1, !Rmult_1_l, Rmult_0_r, exp_0, cos_PI2, sin_PI2.
    f_equal; f_equal; f_equal; ring. }
  assert (Hstated : propagation.multislice_stated complex_mul (propagation.propagate kp) 1 1 obj (Some f)
                    = [[(1, 0)%R]]).
  { rewrite (proj2 (multislice_one_layer _ _ _ _ _)).
    unfold propagation.propagate, propagation.SingleSlice_forward.
    destruct (Req_dec_T (- propagation.distance_to_center 1 1) 0) as [_|n].
    - unfold complex_mul, multiply_grid, obj, f, cmul; simpl. f_equal; f_equal; f_equal; ring.
    - exfalso. apply n. unfold propagation.distance_to_center. simpl. field. }
  split; [exact Hcode|]. split; [exact Hstated|].
  rewrite Hcode, Hstated. intros E. injection E as E1 E2. lra.
Qed.

(* ================================================================== *)
(** * Further properties of operators.py and propagation.py *)

(* ------------------------------------------------------------------ *)
(** ** Cells of the complex primitives *)

Lemma length_imap_from {A B} (f : nat -> A -> B) n l : length (imap_from f n l) = length l.
Proof. revert n; induction l as [|x l IH]; intros n; simpl; [reflexivity|]. rewrite IH. reflexivity. Qed.

Lemma nth_imap_from {A B} (f : nat -> A -> B) n l i (d : B) (d' : A) :
  (i < length l)%nat -> nth i (imap_from f n l) d = f (n + i)%nat (nth i l d').
Proof.
  revert n i. induction l as [|x l IH]; intros n i Hi; simpl in *; [lia|].
  destruct i as [|i]; [rewrite Nat.add_0_r; reflexivity|].
  rewrite IH by lia. f_equal. lia.
Qed.

Lemma update_last_at t k g sh :
  shape t = sh ++ [2%nat] -> length (data t) = (numel sh * 2)%nat -> (k < 2)%nat ->
  exists r, update_last t k g = Ok r /\ shape r = sh ++ [2%nat] /\
    length (data r) = (numel sh * 2)%nat /\
    forall j c, (j < numel sh)%nat -> (c < 2)%nat ->
      nth (j * 2 + c) (data r) 0%R =
      if (c =? k)%nat then g j (nth (j * 2 + c) (data t) 0%R) else nth (j * 2 + c) (data t) 0%R.
Proof.
  intros Hs Hl Hk. unfold update_last. rewrite Hs, last_dim_app2.
  destruct (Nat.ltb_spec k 2); [|lia]. eexists; split; [reflexivity|].
  cbn [shape data]. split; [reflexivity|]. unfold imap. split; [rewrite length_imap_from; exact Hl|].
  intros j c Hj Hc. rewrite nth_imap_from with (d' := 0%R) by lia. rewrite Nat.add_0_l.
  replace ((j * 2 + c) mod 2)%nat with c by (rewrite Nat.add_comm, Nat.Div0.mod_add, Nat.mod_small; lia).
  replace ((j * 2 + c) / 2)%nat with j by (rewrite Nat.add_comm, Nat.div_add, Nat.div_small; lia).
  reflexivity.
Qed.

Lemma conj_cells t sh :
  shape t = sh ++ [2%nat] -> length (data t) = (numel sh * 2)%nat ->
  exists r, operators.conj t = Ok r /\ shape r = sh ++ [2%nat] /\
    length (data r) = (numel sh * 2)%nat /\
    forall j, (j < numel sh)%nat -> cell r j = cconj (cell t j).
Proof.
  intros Hs Hl. destruct (update_last_at t 1 (fun _ x => (x * -1)%R) sh Hs Hl ltac:(lia))
    as [r [E [S [L C]]]].
  exists r. unfold operators.conj. repeat split; auto.
  intros j Hj. unfold cell, cconj; simpl.
  pose proof (C j 0%nat Hj ltac:(lia)) as C0. pose proof (C j 1%nat Hj ltac:(lia)) as C1.
  rewrite Nat.add_0_r in C0. simpl in C0, C1. rewrite C0, C1. reflexivity.
Qed.

Lemma multiply_complex_cells a b sh :
  shape a = sh ++ [2%nat] -> shape b = sh ++ [2%nat] ->
  exists r, operators.multiply_complex a b = Ok r /\ shape r = sh ++ [2%nat] /\
    length (data r) = (numel sh * 2)%nat /\
    forall j, (j < numel sh)%nat -> cell r j = cmul (cell a j) (cell b j).
Proof.
  intros Ha Hb. unfold operators.multiply_complex.
  destruct (select_last_at a 0 2 sh Ha ltac:(lia)) as [a0 [Ea0 [Sa0 [La0 Ca0]]]].
  destruct (select_last_at b 0 2 sh Hb ltac:(lia)) as [b0 [Eb0 [Sb0 [Lb0 Cb0]]]].
  destruct (select_last_at a 1 2 sh Ha ltac:(lia)) as [a1 [Ea1 [Sa1 [La1 Ca1]]]].
  destruct (select_last_at b 1 2 sh Hb ltac:(lia)) as [b1 [Eb1 [Sb1 [Lb1 Cb1]]]].
  rewrite Ea0, Eb0, Ea1, Eb1; cbn [bind].
  destruct (zip_with_at Rmult a0 b0 sh Sa0 Sb0) as [p [Ep [Sp [Lp Cp]]]].
  rewrite Ep; cbn [bind].
  destruct (zip_with_at Rmult a1 b1 sh Sa1 Sb1) as [q [Eq [Sq [Lq Cq]]]].
  rewrite Eq; cbn [bind].
  destruct (zip_with_at Rminus p q sh Sp Sq) as [re [Ere [Sre [Lre Cre]]]].
  rewrite Ere; cbn [bind].
  destruct (zip_with_at Rmult a0 b1 sh Sa0 Sb1) as [u [Eu [Su [Lu Cu]]]].
  rewrite Eu; cbn [bind].
  destruct (zip_with_at Rmult a1 b0 sh Sa1 Sb0) as [v [Ev [Sv [Lv Cv]]]].
  rewrite Ev; cbn [bind].
  destruct (zip_with_at Rplus u v sh Su Sv) as [im [Eim [Sim [Lim Cim]]]].
  rewrite Eim; cbn [bind].
  destruct (stack_last2_at re im sh Sre Sim Lre Lim) as [r [Er [Sr [Lr [Cra Crb]]]]].
  exists r. repeat split; auto.
  intros j Hj. unfold cell, cmul; simpl.
  rewrite Cra, Crb, Cre, Cim, Cp, Cq, Cu, Cv, Ca0, Cb0, Ca1, Cb1 by exact Hj.
  rewrite !Nat.add_0_r. reflexivity.
Qed.

Lemma sum_last_at t sh :
  shape t = sh ++ [2%nat] ->
  shape (sum_last t) = sh /\ length (data (sum_last t)) = numel sh /\
  forall j, (j < numel sh)%nat ->
    nth j (data (sum_last t)) 0%R = (nth (j * 2) (data t) 0%R + (nth (j * 2 + 1) (data t) 0%R + 0))%R.
Proof.
  intros Hs. unfold sum_last. rewrite Hs, last_dim_app2, removelast_last. cbn [shape data].
  split; [reflexivity|]. split; [rewrite length_map, length_seq; reflexivity|].
  intros j Hj. rewrite nth_map_seq by exact Hj. cbn [seq map fold_right]. rewrite Nat.add_0_r. reflexivity.
Qed.

(** Squared modulus of every cell: [(t ** 2).sum(-1)]. *)
Lemma sum_sq_at t sh :
  shape t = sh ++ [2%nat] -> length (data t) = (numel sh * 2)%nat ->
  let d := sum_last (tmap (fun x => x ^ 2)%R t) in
  shape d = sh /\ length (data d) = numel sh /\
  forall j, (j < numel sh)%nat ->
    nth j (data d) 0%R = (fst (cell t j) ^ 2 + (snd (cell t j) ^ 2 + 0))%R.
Proof.
  intros Hs Hl d. destruct (sum_last_at (tmap (fun x => x ^ 2)%R t) sh Hs) as [S [L C]].
  split; [exact S|]. split; [exact L|]. intros j Hj. unfold d. rewrite C by exact Hj.
  unfold cell, tmap; cbn [data fst snd]. rewrite !nth_map_lt with (d' := 0%R) by lia.
  reflexivity.
Qed.

Lemma division_complex_cells a b sh :
  shape a = sh ++ [2%nat] -> shape b = sh ++ [2%nat] -> length (data b) = (numel sh * 2)%nat ->
  exists r, operators.division_complex a b = Ok r /\ shape r = sh ++ [2%nat] /\
    length (data r) = (numel sh * 2)%nat /\
    forall j, (j < numel sh)%nat ->
      let '(x, y) := cell a j in let '(u, v) := cell b j in
      cell r j = ((x * u + y * v) / (u ^ 2 + (v ^ 2 + 0)), (y * u - x * v) / (u ^ 2 + (v ^ 2 + 0)))%R.
Proof.
  intros Ha Hb Hlb. unfold operators.division_complex.
  destruct (sum_sq_at b sh Hb Hlb) as [Sd [Ld Cd]].
  set (den := sum_last (tmap (fun x => x ^ 2)%R b)) in *.
  destruct (select_last_at a 0 2 sh Ha ltac:(lia)) as [a0 [Ea0 [Sa0 [La0 Ca0]]]].
  destruct (select_last_at b 0 2 sh Hb ltac:(lia)) as [b0 [Eb0 [Sb0 [Lb0 Cb0]]]].
  destruct (select_last_at a 1 2 sh Ha ltac:(lia)) as [a1 [Ea1 [Sa1 [La1 Ca1]]]].
  destruct (select_last_at b 1 2 sh Hb ltac:(lia)) as [b1 [Eb1 [Sb1 [Lb1 Cb1]]]].
  rewrite Ea0, Eb0, Ea1, Eb1; cbn [bind].
  destruct (zip_with_at Rmult a0 b0 sh Sa0 Sb0) as [p [Ep [Sp [Lp Cp]]]].
  rewrite Ep; cbn [bind].
  destruct (zip_with_at Rmult a1 b1 sh Sa1 Sb1) as [q [Eq [Sq [Lq Cq]]]].
  rewrite Eq; cbn [bind].
  destruct (zip_with_at Rplus p q sh Sp Sq) as [n0 [En0 [Sn0 [Ln0 Cn0]]]].
  rewrite En0; cbn [bind].
  destruct (zip_with_at Rdiv n0 den sh Sn0 Sd) as [re [Ere [Sre [Lre Cre]]]].
  rewrite Ere; cbn [bind].
  destruct (zip_with_at Rmult a1 b0 sh Sa1 Sb0) as [u [Eu [Su [Lu Cu]]]].
  rewrite Eu; cbn [bind].
  destruct (zip_with_at Rmult a0 b1 sh Sa0 Sb1) as [v [Ev [Sv [Lv Cv]]]].
  rewrite Ev; cbn [bind].
  destruct (zip_with_at Rminus u v sh Su Sv) as [n1 [En1 [Sn1 [Ln1 Cn1]]]].
  rewrite En1; cbn [bind].
  destruct (zip_with_at Rdiv n1 den sh Sn1 Sd) as [im [Eim [Sim [Lim Cim]]]].
  rewrite Eim; cbn [bind].
  destruct (stack_last2_at re im sh Sre Sim Lre Lim) as [r [Er [Sr [Lr [Cra Crb]]]]].
  exists r. repeat split; auto.
  intros j Hj. pose proof (Cd j Hj) as Dj. unfold cell in *; simpl in *.
  rewrite Cra, Crb, Cre, Cim, Cn0, Cn1, Cp, Cq, Cu, Cv, Ca0, Cb0, Ca1, Cb1, Dj by exact Hj.
  rewrite !Nat.add_0_r. reflexivity.
Qed.

Lemma abs_cells t sh :
  shape t = sh ++ [2%nat] -> length (data t) = (numel sh * 2)%nat ->
  exists r, operators.abs t = Ok r /\ shape r = sh /\ length (data r) = numel sh /\
    forall j, (j < numel sh)%nat ->
      nth j (data r) 0%R = sqrt (fst (cell t j) ^ 2 + (snd (cell t j) ^ 2 + 0))%R.
Proof.
  intros Hs Hl. destruct (sum_sq_at t sh Hs Hl) as [S [L C]].
  unfold operators.abs, operators.assert_complex. rewrite Hs, last_dim_app2. cbn [Nat.eqb bind].
  eexists; split; [reflexivity|]. cbn [shape data tmap]. rewrite length_map.
  split; [exact S|]. split; [exact L|]. intros j Hj.
  rewrite nth_map_lt with (d' := 0%R) by lia. rewrite C by exact Hj. reflexivity.
Qed.

Lemma angle_cells t sh :
  shape t = sh ++ [2%nat] ->
  exists r, operators.angle t = Ok r /\ shape r = sh /\ length (data r) = numel sh /\
    forall j, (j < numel sh)%nat -> nth j (data r) 0%R = atan2 (snd (cell t j)) (fst (cell t j)).
Proof.
  intros Hs. unfold operators.angle.
  destruct (select_last_at t 1 2 sh Hs ltac:(lia)) as [im [Eim [Sim [Lim Cim]]]].
  destruct (select_last_at t 0 2 sh Hs ltac:(lia)) as [re [Ere [Sre [Lre Cre]]]].
  rewrite Eim, Ere; cbn [bind].
  destruct (zip_with_at atan2 im re sh Sim Sre) as [r [Er [Sr [Lr Cr]]]].
  exists r. repeat split; auto. intros j Hj. unfold cell; simpl.
  rewrite Cr, Cim, Cre by exact Hj. rewrite Nat.add_0_r. reflexivity.
Qed.

(** A complex tensor is determined by its shape and its cells. *)
Lemma cells_ext r a sh :
  shape r = sh ++ [2%nat] -> shape a = sh ++ [2%nat] ->
  length (data r) = (numel sh * 2)%nat -> length (data a) = (numel sh * 2)%nat ->
  (forall j, (j < numel sh)%nat -> cell r j = cell a j) -> r = a.
Proof.
  intros Sr Sa Lr La C. destruct r as [shr dr], a as [sha da]; simpl in *. subst shr sha.
  f_equal. apply nth_ext with (d := 0%R) (d' := 0%R); [congruence|].
  intros i Hi. rewrite Lr in Hi.
  pose proof (Nat.div_mod_eq i 2) as Ei. pose proof (Nat.mod_upper_bound i 2 ltac:(lia)) as Hm.
  assert (Hj : (i / 2 < numel sh)%nat) by (apply Nat.Div0.div_lt_upper_bound; lia).
  pose proof (C (i / 2)%nat Hj) as Cj. unfold cell in Cj; simpl in Cj. injection Cj as C0 C1.
  destruct (i mod 2) as [|[|k]] eqn:Em; [| |lia].
  - replace i with (i / 2 * 2)%nat by lia. exact C0.
  - replace i with (i / 2 * 2 + 1)%nat by lia. exact C1.
Qed.

(** A real tensor is determined by its shape and its entries. *)
Lemma tensor_ext r a sh :
  shape r = sh -> shape a = sh -> length (data r) = numel sh -> length (data a) = numel sh ->
  (forall j, (j < numel sh)%nat -> nth j (data r) 0%R = nth j (data a) 0%R) -> r = a.
Proof.
  intros Sr Sa Lr La C. destruct r as [shr dr], a as [sha da]; simpl in *. subst shr sha.
  f_equal. apply nth_ext with (d := 0%R) (d' := 0%R); [congruence|].
  intros i Hi. apply C. lia.
Qed.

Lemma assign_last_at t k v sh :
  shape t = sh ++ [2%nat] -> length (data t) = (numel sh * 2)%nat -> (k < 2)%nat -> shape v = sh ->
  exists r, assign_last t k v = Ok r /\ shape r = sh ++ [2%nat] /\
    length (data r) = (numel sh * 2)%nat /\
    forall j c, (j < numel sh)%nat -> (c < 2)%nat ->
      nth (j * 2 + c) (data r) 0%R =
      if (c =? k)%nat then nth j (data v) 0%R else nth (j * 2 + c) (data t) 0%R.
Proof.
  intros Hs Hl Hk Hv. unfold assign_last. rewrite Hv.
  replace (removelast (shape t)) with sh by (rewrite Hs, removelast_last; reflexivity).
  destruct (list_eq_dec Nat.eq_dec sh sh) as [_|n]; [|contradiction].
  apply (update_last_at t k (fun c _ => nth c (data v) 0%R) sh Hs Hl Hk).
Qed.

Lemma exp_cells t sh :
  shape t = sh ++ [2%nat] -> length (data t) = (numel sh * 2)%nat ->
  exists r, operators.exp t = Ok r /\ shape r = sh ++ [2%nat] /\
    length (data r) = (numel sh * 2)%nat /\
    forall j, (j < numel sh)%nat -> cell r j = cexp (cell t j).
Proof.
  intros Hs Hl. unfold operators.exp.
  destruct (select_last_at t 0 2 sh Hs ltac:(lia)) as [re [Ere [Sre [Lre Cre]]]].
  rewrite Ere; cbn [bind]. cbv zeta.
  destruct (select_last_at t 1 2 sh Hs ltac:(lia)) as [im [Eim [Sim [Lim Cim]]]].
  rewrite Eim; cbn [bind].
  destruct (zip_with_at Rmult (tmap Rtrigo_def.exp re) (tmap cos im) sh Sre Sim)
    as [c [Ec [Sc [Lc Cc]]]].
  rewrite Ec; cbn [bind].
  destruct (assign_last_at t 0 c sh Hs Hl ltac:(lia) Sc) as [out [Eo [So [Lo Co]]]].
  rewrite Eo; cbn [bind].
  destruct (zip_with_at Rmult (tmap Rtrigo_def.exp re) (tmap sin im) sh Sre Sim)
    as [s [Es [Ss [Ls Cs]]]].
  rewrite Es; cbn [bind].
  destruct (assign_last_at out 1 s sh So Lo ltac:(lia) Ss) as [r [Er [Sr [Lr Cr]]]].
  exists r. repeat split; auto.
  intros j Hj. unfold cell, cexp; simpl.
  pose proof (Cr j 0%nat Hj ltac:(lia)) as R0. pose proof (Cr j 1%nat Hj ltac:(lia)) as R1.
  pose proof (Co j 0%nat Hj ltac:(lia)) as O0. pose proof (Co j 1%nat Hj ltac:(lia)) as O1.
  simpl in R0, R1, O0, O1. rewrite Nat.add_0_r in R0, O0.
  rewrite R0, R1, O0, Cc, Cs by exact Hj.
  rewrite !nth_tmap by lia. rewrite Cre, Cim by exact Hj.
  rewrite Nat.add_0_r. reflexivity.
Qed.

Lemma cnorm_pos (u v : R) : (u, v) <> (0, 0)%R -> (0 < u ^ 2 + (v ^ 2 + 0))%R.
Proof.
  intros H. destruct (Req_dec u 0) as [->|Hu].
  - destruct (Req_dec v 0) as [->|Hv]; [contradiction|].
    pose proof (Rsqr_pos_lt v Hv). unfold Rsqr in *. nra.
  - pose proof (Rsqr_pos_lt u Hu). pose proof (pow2_ge_0 v). unfold Rsqr in *. nra.
Qed.

Lemma cnorm_nonneg (u v : R) : (0 <= u ^ 2 + (v ^ 2 + 0))%R.
Proof. pose proof (pow2_ge_0 u). pose proof (pow2_ge_0 v). lra. Qed.

(** [sqrt (x^2 + y^2)] and [atan2 y x] are polar coordinates of [(x, y)]. *)
Lemma polar_atan2 (x y : R) :
  (sqrt (x ^ 2 + (y ^ 2 + 0)) * cos (atan2 y x) = x /\
   sqrt (x ^ 2 + (y ^ 2 + 0)) * sin (atan2 y x) = y)%R.
Proof.
  pose proof (pow2_ge_0 y) as Hy2.
  unfold atan2.
  destruct (Rlt_dec 0 x) as [Hx|Hx]; [|destruct (Rlt_dec x 0) as [Hx'|Hx']].
  - set (u := (y / x)%R).
    assert (Hs : (0 < sqrt (1 + u ^ 2))%R) by (apply sqrt_lt_R0; pose proof (pow2_ge_0 u); lra).
    assert (Hr : sqrt (x ^ 2 + (y ^ 2 + 0)) = (sqrt (1 + u ^ 2) * x)%R).
    { rewrite <- (sqrt_pow2 x) at 2 by lra.
      rewrite <- sqrt_mult_alt by (pose proof (pow2_ge_0 u); lra). f_equal. unfold u. field. lra. }
    rewrite Hr, cos_atan, sin_atan. replace (Rsqr u) with (u ^ 2)%R by (unfold Rsqr; ring).
    set (S := sqrt (1 + u ^ 2)) in *. unfold u. split; field; lra.
  - set (u := (y / x)%R).
    assert (Hs : (0 < sqrt (1 + u ^ 2))%R) by (apply sqrt_lt_R0; pose proof (pow2_ge_0 u); lra).
    assert (Hr : sqrt (x ^ 2 + (y ^ 2 + 0)) = (sqrt (1 + u ^ 2) * - x)%R).
    { rewrite <- (sqrt_pow2 (- x)) by lra.
      rewrite <- sqrt_mult_alt by (pose proof (pow2_ge_0 u); lra). f_equal. unfold u. field. lra. }
    assert (Hc : forall a, cos (a + PI) = (- cos a)%R /\ cos (a - PI) = (- cos a)%R /\
                           sin (a + PI) = (- sin a)%R /\ sin (a - PI) = (- sin a)%R).
    { intros a. rewrite cos_plus, cos_minus, sin_plus, sin_minus, cos_PI, sin_PI.
      repeat split; ring. }
    destruct (Hc (atan u)) as [C1 [C2 [S1 S2]]].
    rewrite Hr. destruct (Rle_dec 0 y); [rewrite C1, S1|rewrite C2, S2];
      rewrite cos_atan, sin_atan; replace (Rsqr u) with (u ^ 2)%R by (unfold Rsqr; ring);
      set (S := sqrt (1 + u ^ 2)) in *; unfold u; split; field; lra.
  - assert (Hx0 : x = 0%R) by lra. subst x.
    destruct (Rlt_dec 0 y) as [Hy|Hy]; [|destruct (Rlt_dec y 0) as [Hy'|Hy']].
    + rewrite cos_PI2, sin_PI2. replace (0 ^ 2 + (y ^ 2 + 0))%R with (y ^ 2)%R by ring.
      rewrite sqrt_pow2 by lra. split; ring.
    + rewrite cos_neg, sin_neg, cos_PI2, sin_PI2.
      replace (0 ^ 2 + (y ^ 2 + 0))%R with ((- y) ^ 2)%R by ring.
      rewrite sqrt_pow2 by lra. split; ring.
    + assert (y = 0%R) by lra. subst y.
      replace (0 ^ 2 + (0 ^ 2 + 0))%R with 0%R by ring. rewrite sqrt_0. split; ring.
Qed.

(* ------------------------------------------------------------------ *)
(** ** Algebra of the complex operators *)

(** X1: dividing by a tensor without zero cells and multiplying back by it
    gives the dividend back. *)
Theorem division_multiply_roundtrip (a b : tensor) (sh : list nat) :
  shape a = sh ++ [2%nat] -> shape b = sh ++ [2%nat] ->
  length (data a) = (numel sh * 2)%nat -> length (data b) = (numel sh * 2)%nat ->
  (forall j, (j < numel sh)%nat -> cell b j <> (0, 0)%R) ->
  (q <- operators.division_complex a b ;; operators.multiply_complex q b) = Ok a.
Proof.
  intros Ha Hb La Lb Hnz.
  destruct (division_complex_cells a b sh Ha Hb Lb) as [q [Eq [Sq [Lq Cq]]]].
  rewrite Eq; cbn [bind].
  destruct (multiply_complex_cells q b sh Sq Hb) as [m [Em [Sm [Lm Cm]]]].
  rewrite Em. f_equal. apply (cells_ext m a sh Sm Ha Lm La).
  intros j Hj. rewrite Cm by exact Hj. pose proof (Cq j Hj) as D. pose proof (Hnz j Hj) as N.
  destruct (cell a j) as [x y]. destruct (cell b j) as [u v].
  pose proof (cnorm_pos u v N) as P. rewrite D. unfold cmul; cbn [fst snd].
  f_equal; field; lra.
Qed.

Lemma division_multiply_roundtrip_witness :
  (q <- operators.division_complex (mkT [1%nat; 2%nat] [1; 2]%R) (mkT [1%nat; 2%nat] [3; 4]%R) ;;
   operators.multiply_complex q (mkT [1%nat; 2%nat] [3; 4]%R)) = Ok (mkT [1%nat; 2%nat] [1; 2]%R).
Proof.
  apply (division_multiply_roundtrip _ _ [1%nat]); try reflexivity.
  intros j Hj. destruct j; [|simpl in Hj; lia].
  unfold cell; simpl. intros E. injection E as E1 E2. lra.
Defined.

(** X2: the conjugate of a product is the product of the conjugates. *)
Theorem conj_multiply_distrib (a b : tensor) (sh : list nat) :
  shape a = sh ++ [2%nat] -> shape b = sh ++ [2%nat] ->
  length (data a) = (numel sh * 2)%nat -> length (data b) = (numel sh * 2)%nat ->
  (m <- operators.multiply_complex a b ;; operators.conj m) =
  (ca <- operators.conj a ;; cb <- operators.conj b ;; operators.multiply_complex ca cb).
Proof.
  intros Ha Hb La Lb.
  destruct (multiply_complex_cells a b sh Ha Hb) as [m [Em [Sm [Lm Cm]]]].
  destruct (conj_cells m sh Sm Lm) as [r [Er [Sr [Lr Cr]]]].
  destruct (conj_cells a sh Ha La) as [ca [Eca [Sca [Lca Cca]]]].
  destruct (conj_cells b sh Hb Lb) as [cb [Ecb [Scb [Lcb Ccb]]]].
  destruct (multiply_complex_cells ca cb sh Sca Scb) as [r' [Er' [Sr' [Lr' Cr']]]].
  rewrite Em, Eca, Ecb; cbn [bind]. rewrite Er, Er'. f_equal.
  apply (cells_ext r r' sh Sr Sr' Lr Lr'). intros j Hj.
  rewrite Cr, Cm, Cr', Cca, Ccb by exact Hj.
  destruct (cell a j) as [x y], (cell b j) as [u v].
  unfold cconj, cmul; cbn [fst snd]. f_equal; ring.
Qed.

Lemma conj_multiply_distrib_witness :
  (m <- operators.multiply_complex (mkT [1%nat; 2%nat] [1; 2]%R) (mkT [1%nat; 2%nat] [3; 4]%R) ;;
   operators.conj m) =
  (ca <- operators.conj (mkT [1%nat; 2%nat] [1; 2]%R) ;;
   cb <- operators.conj (mkT [1%nat; 2%nat] [3; 4]%R) ;; operators.multiply_complex ca cb).
Proof. apply (conj_multiply_distrib _ _ [1%nat]); reflexivity. Defined.

(** X3: the modulus of a product is the product of the moduli. *)
Theorem abs_multiply (a b : tensor) (sh : list nat) :
  shape a = sh ++ [2%nat] -> shape b = sh ++ [2%nat] ->
  length (data a) = (numel sh * 2)%nat -> length (data b) = (numel sh * 2)%nat ->
  (m <- operators.multiply_complex a b ;; operators.abs m) =
  (x <- operators.abs a ;; y <- operators.abs b ;; zip_with Rmult x y).
Proof.
  intros Ha Hb La Lb.
  destruct (multiply_complex_cells a b sh Ha Hb) as [m [Em [Sm [Lm Cm]]]].
  destruct (abs_cells m sh Sm Lm) as [r [Er [Sr [Lr Cr]]]].
  destruct (abs_cells a sh Ha La) as [x [Ex [Sx [Lx Cx]]]].
  destruct (abs_cells b sh Hb Lb) as [y [Ey [Sy [Ly Cy]]]].
  destruct (zip_with_at Rmult x y sh Sx Sy) as [r' [Er' [Sr' [Lr' Cr']]]].
  rewrite Em, Ex, Ey; cbn [bind]. rewrite Er, Er'. f_equal.
  apply (tensor_ext r r' sh Sr Sr' Lr Lr'). intros j Hj.
  rewrite Cr, Cm, Cr', Cx, Cy by exact Hj.
  destruct (cell a j) as [p q], (cell b j) as [u v].
  unfold cmul; cbn [fst snd]. rewrite <- sqrt_mult_alt by apply cnorm_nonneg.
  f_equal. ring.
Qed.

Lemma abs_multiply_witness :
  (m <- operators.multiply_complex (mkT [1%nat; 2%nat] [1; 2]%R) (mkT [1%nat; 2%nat] [3; 4]%R) ;;
   operators.abs m) =
  (x <- operators.abs (mkT [1%nat; 2%nat] [1; 2]%R) ;;
   y <- operators.abs (mkT [1%nat; 2%nat] [3; 4]%R) ;; zip_with Rmult x y).
Proof. apply (abs_multiply _ _ [1%nat]); reflexivity. Defined.

(** X4: [abs] and [angle] are polar coordinates: [abs z * (cos (angle z),
    sin (angle z))] rebuilt with [torch.stack] is [z] again. *)
Theorem abs_angle_polar (z : tensor) (sh : list nat) :
  shape z = sh ++ [2%nat] -> length (data z) = (numel sh * 2)%nat ->
  (a <- operators.abs z ;; p <- operators.angle z ;;
   re <- zip_with Rmult a (tmap cos p) ;; im <- zip_with Rmult a (tmap sin p) ;;
   stack_last2 re im) = Ok z.
Proof.
  intros Hs Hl.
  destruct (abs_cells z sh Hs Hl) as [a [Ea [Sa [La Ca]]]].
  destruct (angle_cells z sh Hs) as [p [Ep [Sp [Lp Cp]]]].
  rewrite Ea, Ep; cbn [bind].
  destruct (zip_with_at Rmult a (tmap cos p) sh Sa ltac:(rewrite tmap_shape; exact Sp))
    as [re [Ere [Sre [Lre Cre]]]].
  rewrite Ere; cbn [bind].
  destruct (zip_with_at Rmult a (tmap sin p) sh Sa ltac:(rewrite tmap_shape; exact Sp))
    as [im [Eim [Sim [Lim Cim]]]].
  rewrite Eim; cbn [bind].
  destruct (stack_last2_at re im sh Sre Sim Lre Lim) as [r [Er [Sr [Lr [Cr0 Cr1]]]]].
  rewrite Er. f_equal. apply (cells_ext r z sh Sr Hs Lr Hl). intros j Hj.
  unfold cell at 1. rewrite Cr0, Cr1, Cre, Cim, !nth_tmap, Ca, Cp by lia.
  destruct (cell z j) as [x y]; cbn [fst snd].
  destruct (polar_atan2 x y) as [P1 P2]. rewrite P1, P2. reflexivity.
Qed.

Lemma abs_angle_polar_witness :
  (a <- operators.abs (mkT [1%nat; 2%nat] [3; 4]%R) ;; p <- operators.angle (mkT [1%nat; 2%nat] [3; 4]%R) ;;
   re <- zip_with Rmult a (tmap cos p) ;; im <- zip_with Rmult a (tmap sin p) ;;
   stack_last2 re im) = Ok (mkT [1%nat; 2%nat] [3; 4]%R).
Proof. apply (abs_angle_polar _ [1%nat]); reflexivity. Defined.

(** X5: the forward pass of ComplexAbs2 is the square of the forward pass
    of ComplexAbs. *)
Theorem abs2_is_abs_squared (z : tensor) (sh : list nat) :
  shape z = sh ++ [2%nat] -> length (data z) = (numel sh * 2)%nat ->
  operators.ComplexAbs2_forward z =
  (a <- operators.ComplexAbs_forward z ;; Ok (tmap (fun x => x ^ 2)%R a)).
Proof.
  intros Hs Hl.
  change (operators.ComplexAbs_forward z) with (operators.abs z).
  destruct (abs_cells z sh Hs Hl) as [a [Ea [Sa [La Ca]]]].
  rewrite Ea; cbn [bind].
  unfold operators.ComplexAbs2_forward, operators.assert_complex.
  rewrite Hs, last_dim_app2; cbn [Nat.eqb bind].
  destruct (conj_cells z sh Hs Hl) as [c [Ec [Sc [Lc Cc]]]].
  rewrite Ec; cbn [bind].
  destruct (multiply_complex_cells c z sh Sc Hs) as [out [Eo [So [Lo Co]]]].
  rewrite Eo; cbn [bind].
  destruct (select_last_at out 0 2 sh So ltac:(lia)) as [r [Er [Sr [Lr Cr]]]].
  rewrite Er. f_equal.
  apply (tensor_ext r (tmap (fun x => x ^ 2)%R a) sh Sr
           ltac:(rewrite tmap_shape; exact Sa) Lr ltac:(unfold tmap; cbn [data]; rewrite length_map; exact La)).
  intros j Hj. rewrite Cr, nth_tmap, Ca by lia. rewrite Nat.add_0_r.
  pose proof (Co j Hj) as E. rewrite Cc in E by exact Hj. unfold cell at 1 in E.
  apply (f_equal fst) in E. cbn [fst] in E. rewrite E.
  rewrite pow2_sqrt by apply cnorm_nonneg.
  destruct (cell z j) as [x y]. unfold cmul, cconj; cbn [fst snd]. ring.
Qed.

Lemma abs2_is_abs_squared_witness :
  operators.ComplexAbs2_forward (mkT [1%nat; 2%nat] [3; 4]%R) =
  (a <- operators.ComplexAbs_forward (mkT [1%nat; 2%nat] [3; 4]%R) ;; Ok (tmap (fun x => x ^ 2)%R a)).
Proof. apply (abs2_is_abs_squared _ [1%nat]); reflexivity. Defined.

(** X6: the modulus of [exp z] is the real exponential of the real part
    of [z]. *)
Theorem abs_exp (z : tensor) (sh : list nat) :
  shape z = sh ++ [2%nat] -> length (data z) = (numel sh * 2)%nat ->
  (e <- operators.exp z ;; operators.abs e) =
  (r <- operators.real z ;; Ok (tmap Rtrigo_def.exp r)).
Proof.
  intros Hs Hl.
  destruct (exp_cells z sh Hs Hl) as [e [Ee [Se [Le Ce]]]].
  destruct (abs_cells e sh Se Le) as [r [Er [Sr [Lr Cr]]]].
  destruct (select_last_at z 0 2 sh Hs ltac:(lia)) as [re [Ere [Sre [Lre Cre]]]].
  unfold operators.real. rewrite Ee, Ere; cbn [bind]. rewrite Er. f_equal.
  apply (tensor_ext r (tmap Rtrigo_def.exp re) sh Sr
           ltac:(rewrite tmap_shape; exact Sre) Lr ltac:(unfold tmap; cbn [data]; rewrite length_map; exact Lre)).
  intros j Hj. rewrite Cr, Ce, nth_tmap, Cre by lia. rewrite Nat.add_0_r.
  change (nth (j * 2) (data z) 0%R) with (fst (cell z j)).
  destruct (cell z j) as [x y]. unfold cexp; cbn [fst snd].
  pose proof (sin2_cos2 y) as T. unfold Rsqr in T.
  replace ((Rtrigo_def.exp x * cos y) ^ 2 + ((Rtrigo_def.exp x * sin y) ^ 2 + 0))%R
    with (Rtrigo_def.exp x ^ 2 * (sin y * sin y + cos y * cos y))%R by ring.
  rewrite T, Rmult_1_r. apply sqrt_pow2. left. apply exp_pos.
Qed.

Lemma abs_exp_witness :
  (e <- operators.exp (mkT [1%nat; 2%nat] [0; 1]%R) ;; operators.abs e) =
  (r <- operators.real (mkT [1%nat; 2%nat] [0; 1]%R) ;; Ok (tmap Rtrigo_def.exp r)).
Proof. apply (abs_exp _ [1%nat]); reflexivity. Defined.

(* ------------------------------------------------------------------ *)
(** ** r2c, real and imag *)

Lemma length_flat_pair (l : list R) : length (flat_map (fun x => [x; 0%R]) l) = (length l * 2)%nat.
Proof. induction l as [|x l IH]; simpl; [reflexivity|]. rewrite IH. reflexivity. Qed.

Lemma nth_flat_pair (l : list R) (j : nat) :
  (j < length l)%nat ->
  nth (j * 2) (flat_map (fun x => [x; 0%R]) l) 0%R = nth j l 0%R /\
  nth (j * 2 + 1) (flat_map (fun x => [x; 0%R]) l) 0%R = 0%R.
Proof.
  revert j. induction l as [|x l IH]; intros j Hj; simpl in Hj; [lia|].
  destruct j as [|j]; [split; reflexivity|]. simpl. apply IH. lia.
Qed.

Lemma r2c_cells (t : tensor) :
  length (data t) = numel (shape t) ->
  shape (operators.r2c t) = shape t ++ [2%nat] /\
  length (data (operators.r2c t)) = (numel (shape t) * 2)%nat /\
  forall j, (j < numel (shape t))%nat -> cell (operators.r2c t) j = (nth j (data t) 0%R, 0%R).
Proof.
  intros Hl. unfold operators.r2c; cbn [shape data]. split; [reflexivity|].
  split; [rewrite length_flat_pair, Hl; reflexivity|].
  intros j Hj. unfold cell; cbn [data]. destruct (nth_flat_pair (data t) j ltac:(lia)) as [E0 E1].
  rewrite E0, E1. reflexivity.
Qed.

(** X7: [real] and [imag] undo [r2c]: the real part of [r2c t] is [t] and
    its imaginary part is zero. *)
Theorem r2c_real_imag (t : tensor) :
  length (data t) = numel (shape t) ->
  operators.real (operators.r2c t) = Ok t /\
  operators.imag (operators.r2c t) = Ok (zeros_like t).
Proof.
  intros Hl. destruct (r2c_cells t Hl) as [S [L Cc]].
  unfold operators.real, operators.imag. split.
  - destruct (select_last_at (operators.r2c t) 0 2 (shape t) S ltac:(lia)) as [r [E [Sr [Lr Cr]]]].
    rewrite E. f_equal. apply (tensor_ext r t (shape t) Sr eq_refl Lr Hl).
    intros j Hj. rewrite Cr by exact Hj. rewrite Nat.add_0_r.
    change (nth (j * 2) (data (operators.r2c t)) 0%R) with (fst (cell (operators.r2c t) j)).
    rewrite Cc by exact Hj. reflexivity.
  - destruct (select_last_at (operators.r2c t) 1 2 (shape t) S ltac:(lia)) as [r [E [Sr [Lr Cr]]]].
    rewrite E. f_equal.
    apply (tensor_ext r (zeros_like t) (shape t) Sr eq_refl Lr
             ltac:(unfold zeros_like, tmap; cbn [data]; rewrite length_map; exact Hl)).
    intros j Hj. rewrite Cr by exact Hj. unfold zeros_like. rewrite nth_tmap by lia.
    change (nth (j * 2 + 1) (data (operators.r2c t)) 0%R) with (snd (cell (operators.r2c t) j)).
    rewrite Cc by exact Hj. reflexivity.
Qed.

Lemma r2c_real_imag_witness :
  operators.real (operators.r2c (mkT [2%nat] [5; 7]%R)) = Ok (mkT [2%nat] [5; 7]%R) /\
  operators.imag (operators.r2c (mkT [2%nat] [5; 7]%R)) = Ok (zeros_like (mkT [2%nat] [5; 7]%R)).
Proof. apply r2c_real_imag. reflexivity. Defined.

(** X8: the modulus of a real tensor embedded by [r2c] is its absolute
    value. *)
Theorem abs_r2c (t : tensor) :
  length (data t) = numel (shape t) ->
  operators.abs (operators.r2c t) = Ok (tmap Rabs t).
Proof.
  intros Hl. destruct (r2c_cells t Hl) as [S [L Cc]].
  destruct (abs_cells (operators.r2c t) (shape t) S L) as [r [E [Sr [Lr Cr]]]].
  rewrite E. f_equal.
  apply (tensor_ext r (tmap Rabs t) (shape t) Sr eq_refl Lr
           ltac:(unfold tmap; cbn [data]; rewrite length_map; exact Hl)).
  intros j Hj. rewrite Cr, Cc, nth_tmap by lia. cbn [fst snd].
  rewrite <- sqrt_Rsqr_abs. f_equal. unfold Rsqr. ring.
Qed.

Lemma abs_r2c_witness :
  operators.abs (operators.r2c (mkT [2%nat] [-5; 7]%R)) = Ok (tmap Rabs (mkT [2%nat] [-5; 7]%R)).
Proof. apply abs_r2c. reflexivity. Defined.

(* ------------------------------------------------------------------ *)
(** ** fftshift and ifftshift *)

Lemma resolve_ok (rank : nat) (a : Z) (ax : nat) :
  operators.resolve_axis rank a = Ok ax -> valid_axis rank a.
Proof.
  unfold operators.resolve_axis, valid_axis.
  destruct ((0 <=? a)%Z && (a <? Z.of_nat rank)%Z)%bool eqn:E1.
  - apply andb_prop in E1 as [E1 E2]. apply Z.leb_le in E1. apply Z.ltb_lt in E2. lia.
  - destruct ((- Z.of_nat rank <=? a)%Z && (a <? 0)%Z)%bool eqn:E2; [|discriminate].
    apply andb_prop in E2 as [E2 E3]. apply Z.leb_le in E2. apply Z.ltb_lt in E3. lia.
Qed.

Lemma roll_loop_ok_iff {A} (shift : nat -> Z) (axs : list Z) (sh : list nat) (b : nd A) :
  is_ok (operators.roll_loop shift axs (mkND sh b)) = true <-> Forall (valid_axis (length sh)) axs.
Proof.
  revert b. induction axs as [|a axs IH]; intros b; simpl.
  - split; auto.
  - destruct (operators.resolve_axis (length sh) a) as [ax|e] eqn:E; cbn [bind].
    + rewrite IH. split.
      * intros H. constructor; [eapply resolve_ok; exact E|exact H].
      * intros H. inversion H; assumption.
    + split; [cbn; discriminate|].
      intros H. inversion H as [|? ? Ha _]; subst.
      rewrite resolve_valid in E by exact Ha. discriminate.
Qed.

(** X9: fftshift and ifftshift succeed exactly when an axes argument is
    given (the default [None] raises) and every listed axis is a valid
    index of the tensor's rank. *)
Theorem fftshift_ok_iff {A} (t : ndtensor A) (axes : operators.axes_arg) :
  (is_ok (operators.fftshift t axes) = true <->
   exists axs, operators.atleast_1d axes = Ok axs /\ Forall (valid_axis (length (nd_shape t))) axs) /\
  (is_ok (operators.ifftshift t axes) = true <->
   exists axs, operators.atleast_1d axes = Ok axs /\ Forall (valid_axis (length (nd_shape t))) axs).
Proof.
  destruct t as [sh b]. unfold operators.fftshift, operators.ifftshift. cbn [nd_shape].
  destruct (operators.atleast_1d axes) as [axs|e]; cbn [bind].
  - rewrite !roll_loop_ok_iff.
    split; split; try (intros H; exists axs; split; [reflexivity|exact H]);
      intros [axs' [E H]]; injection E as <-; exact H.
  - split; split; try (cbn; discriminate); intros [axs' [E _]]; discriminate.
Qed.

Lemma roll_list_Forall {A} (P : A -> Prop) (s : Z) (l : list A) :
  Forall P l -> Forall P (roll_list s l).
Proof.
  intros H. unfold roll_list. destruct (length l =? 0)%nat; [exact H|].
  set (m := (length l - Z.to_nat (s mod Z.of_nat (length l)))%nat).
  pose proof (firstn_skipn m l) as E. rewrite <- E in H.
  apply Forall_app in H as [H1 H2]. apply Forall_app. split; assumption.
Qed.

Lemma roll_at_wf {A} (sh : list nat) (ax : nat) (s : Z) (t : nd A) :
  wf_nd sh t -> wf_nd sh (roll_at ax s t).
Proof.
  revert sh t. induction ax as [|ax IH]; intros sh [x|xs] Hw; simpl; try exact Hw;
    destruct sh as [|n sh']; simpl in Hw; try contradiction; destruct Hw as [Hl Hf]; simpl.
  - split; [rewrite roll_list_length; exact Hl|]. apply roll_list_Forall, Hf.
  - split; [rewrite length_map; exact Hl|]. apply Forall_map.
    eapply Forall_impl; [|exact Hf]. intros x Hx. apply IH, Hx.
Qed.

(** Two shifts that agree modulo the length of the rolled axis roll alike. *)
Lemma roll_at_congr {A} (sh : list nat) (ax : nat) (s s' : Z) (t : nd A) :
  wf_nd sh t -> (s mod Z.of_nat (nth ax sh 0%nat) = s' mod Z.of_nat (nth ax sh 0%nat))%Z ->
  roll_at ax s t = roll_at ax s' t.
Proof.
  revert sh t. induction ax as [|ax IH]; intros sh [x|xs] Hw Hm; simpl; try reflexivity;
    destruct sh as [|n sh']; simpl in Hw; try contradiction; destruct Hw as [Hl Hf]; simpl in Hm.
  - f_equal. unfold roll_list. rewrite Hl, Hm. reflexivity.
  - f_equal. apply map_ext_in. intros x Hx. apply (IH sh'); [|exact Hm].
    rewrite Forall_forall in Hf. apply Hf, Hx.
Qed.

Lemma half_shift_congr (n : nat) :
  Nat.Even n -> (Z.of_nat (n / 2) mod Z.of_nat n = (-1 * Z.of_nat (n / 2)) mod Z.of_nat n)%Z.
Proof.
  intros [k ->]. replace (2 * k / 2)%nat with k by (rewrite Nat.mul_comm, Nat.div_mul; lia).
  destruct k as [|k]; [reflexivity|].
  replace (-1 * Z.of_nat (S k))%Z with (- Z.of_nat (S k))%Z by lia.
  rewrite Z_mod_nz_opp_full by (rewrite Z.mod_small; lia).
  rewrite Z.mod_small by lia. lia.
Qed.

(** X10: on axes of even length fftshift and ifftshift are the same
    operation. *)
Theorem fftshift_even_axes {A} (sh : list nat) (b : nd A) (axes : operators.axes_arg) (axs : list Z) :
  operators.atleast_1d axes = Ok axs ->
  Forall (valid_axis (length sh)) axs ->
  Forall (fun a => Nat.Even (nth (axis_index (length sh) a) sh 0%nat)) axs ->
  wf_nd sh b ->
  operators.fftshift (mkND sh b) axes = operators.ifftshift (mkND sh b) axes.
Proof.
  intros Hax Hv Hev Hw. unfold operators.fftshift, operators.ifftshift. rewrite Hax; cbn [bind].
  rewrite !roll_loop_plan by exact Hv. do 2 f_equal.
  clear Hax Hv. revert b Hw. induction axs as [|a axs IH]; intros b Hw; [reflexivity|].
  inversion Hev as [|? ? Ha Hrest]; subst. unfold roll_plan, apply_rolls. cbn [map fold_left fst snd].
  rewrite (roll_at_congr sh _ _ _ b Hw (half_shift_congr _ Ha)).
  apply IH; [exact Hrest|]. apply roll_at_wf, Hw.
Qed.

Lemma fftshift_even_axes_witness :
  operators.fftshift (mkND [2%nat; 3%nat] (Arr [Arr [Scalar 1; Scalar 2; Scalar 3];
                                                Arr [Scalar 4; Scalar 5; Scalar 6]]))
                     (operators.AxesInt 0%Z) =
  operators.ifftshift (mkND [2%nat; 3%nat] (Arr [Arr [Scalar 1; Scalar 2; Scalar 3];
                                                 Arr [Scalar 4; Scalar 5; Scalar 6]]))
                      (operators.AxesInt 0%Z).
Proof.
  apply (fftshift_even_axes _ _ _ [0%Z]).
  - reflexivity.
  - repeat constructor; unfold valid_axis; simpl; lia.
  - constructor; [exists 1%nat; reflexivity|constructor].
  - cbn. split; [reflexivity|]. repeat constructor.
Defined.

(* ------------------------------------------------------------------ *)
(** ** The two-dimensional transforms and the convolution *)

Lemma cscale_cmul_l (r : R) (a b : C) : cmul (cscale r a) b = cscale r (cmul a b).
Proof. destruct a, b; unfold cscale, cmul; simpl; f_equal; ring. Qed.

Lemma csumf_cscale (r : R) N f : csumf N (fun i => cscale r (f i)) = cscale r (csumf N f).
Proof.
  induction N as [|N IH]; [rewrite !csumf_0; unfold cscale; simpl; f_equal; ring|].
  rewrite !csumf_S, IH. destruct (csumf N f), (f N). unfold cadd, cscale; simpl; f_equal; ring.
Qed.

(** One entry of [fft2 (ifft2 y)], written with the entries [X] of [y]. *)
Lemma dft2_forward_entry H W (X : nat -> nat -> C) m1 m2 :
  (m1 < H)%nat -> (m2 < W)%nat ->
  cscale 1
    (csumf H (fun k1 => csumf W (fun k2 =>
       cmul (cscale (/ (INR H * INR W)) (csumf H (fun n1 => csumf W (fun n2 =>
               cmul (X n1 n2)
                    (cis (1 * 2 * PI * (INR (k1 * n1) / INR H + INR (k2 * n2) / INR W)))))))
            (cis (-1 * 2 * PI * (INR (m1 * k1) / INR H + INR (m2 * k2) / INR W)))))) =
  X m1 m2.
Proof.
  intros Hm1 Hm2.
  assert (HH : INR H <> 0%R) by (apply not_0_INR; lia).
  assert (HW : INR W <> 0%R) by (apply not_0_INR; lia).
  set (th1 n1 := (2 * PI * (INR n1 - INR m1) / INR H)%R).
  set (th2 n2 := (2 * PI * (INR n2 - INR m2) / INR W)%R).
  set (s := (/ (INR H * INR W))%R).
  transitivity (cscale s (csumf H (fun k1 => csumf W (fun k2 => csumf H (fun n1 => csumf W (fun n2 =>
                  cmul (X n1 n2) (cmul (cis (INR k1 * th1 n1)) (cis (INR k2 * th2 n2))))))))).
  { rewrite cscale_1, <- csumf_cscale. apply csumf_ext; intros k1 _.
    rewrite <- csumf_cscale. apply csumf_ext; intros k2 _.
    rewrite cscale_cmul_l. f_equal.
    rewrite <- csumf_cmul_r. apply csumf_ext; intros n1 _.
    rewrite <- csumf_cmul_r. apply csumf_ext; intros n2 _.
    rewrite cmul_assoc, !cis_add. f_equal. f_equal. unfold th1, th2. rewrite !mult_INR.
    field. split; assumption. }
  rewrite sum4_swap.
  transitivity (cscale s (csumf H (fun n1 =>
                  if (n1 =? m1)%nat
                  then csumf W (fun n2 => if (n2 =? m2)%nat
                                          then cmul (X n1 n2) (INR H * INR W, 0)%R
                                          else (0, 0)%R)
                  else (0, 0)%R))).
  { f_equal. apply csumf_ext; intros n1 Hn1.
    transitivity (csumf W (fun n2 => cmul (X n1 n2)
                    (cmul (csumf H (fun k1 => cis (INR k1 * th1 n1)))
                          (csumf W (fun k2 => cis (INR k2 * th2 n2)))))).
    { apply csumf_ext; intros n2 _.
      rewrite <- csumf_cmul_r, <- csumf_cmul_l. apply csumf_ext; intros k1 _.
      rewrite <- csumf_cmul_l, <- csumf_cmul_l. reflexivity. }
    unfold th1, th2.
    destruct (Nat.eqb_spec n1 m1) as [->|Hne1].
    - apply csumf_ext; intros n2 Hn2.
      rewrite (roots_sum H m1 m1), (roots_sum W n2 m2) by assumption.
      rewrite Nat.eqb_refl.
      destruct (Nat.eqb_spec n2 m2); destruct (X m1 n2); unfold cmul; simpl; f_equal; ring.
    - rewrite <- (csumf_zero W). apply csumf_ext; intros n2 Hn2.
      rewrite (roots_sum H n1 m1) by assumption.
      destruct (Nat.eqb_spec n1 m1); [lia|].
      destruct (X n1 n2), (csumf W _); unfold cmul; simpl; f_equal; ring. }
  rewrite csumf_delta by exact Hm1. rewrite csumf_delta by exact Hm2.
  unfold s. destruct (X m1 m2). unfold cscale, cmul; simpl. f_equal; field; split; assumption.
Qed.

Lemma fft2_ifft2 H W (y : grid) : rect H W y -> fft2 (ifft2 y) = y.
Proof.
  intros Hy. destruct (Nat.eq_dec H 0) as [->|HH].
  { destruct Hy as [Hl _]. destruct y; [reflexivity|discriminate]. }
  assert (HI : rect H W (ifft2 y)) by (apply dft2_rect; exact Hy).
  unfold fft2 at 1. rewrite (dft2_entries (-1) 1 H W (ifft2 y) HI) by lia.
  etransitivity; [|apply (grid_eta H W y Hy)].
  apply map_ext_in; intros m1 Hm1; apply map_ext_in; intros m2 Hm2.
  apply in_seq in Hm1, Hm2.
  rewrite <- (dft2_forward_entry H W (gget y) m1 m2) by lia.
  f_equal. apply csumf_ext; intros k1 Hk1; apply csumf_ext; intros k2 Hk2. f_equal.
  assert (Hr : rows y = H) by (destruct Hy; assumption).
  assert (Hc : cols y = W) by (apply (cols_rect H W); [exact Hy|lia]).
  unfold ifft2. rewrite Hr, Hc. rewrite (dft2_entries 1 _ H W y Hy) by lia.
  apply (gget_table H W (fun k1 k2 => _)); assumption.
Qed.

(** X11: on H x W fields, [ifft2] undoes [fft2] and [fft2] undoes [ifft2]. *)
Theorem fft2_ifft2_inverse H W (x : grid) :
  rect H W x -> ifft2 (fft2 x) = x /\ fft2 (ifft2 x) = x.
Proof. intros Hx. split; [apply (ifft2_fft2 H W), Hx|apply (fft2_ifft2 H W), Hx]. Qed.

Lemma fft2_ifft2_inverse_witness :
  ifft2 (fft2 [[(1, 2)%R; (3, 4)%R]]) = [[(1, 2)%R; (3, 4)%R]] /\
  fft2 (ifft2 [[(1, 2)%R; (3, 4)%R]]) = [[(1, 2)%R; (3, 4)%R]].
Proof. apply (fft2_ifft2_inverse 1 2). split; [reflexivity|repeat constructor]. Defined.

Lemma multiply_row_length (r s : list C) :
  length (map (fun p => cmul (fst p) (snd p)) (combine r s)) = Nat.min (length r) (length s).
Proof. rewrite length_map, length_combine. reflexivity. Qed.

Lemma multiply_grid_rect H W (a b : grid) :
  rect H W a -> rect H W b -> rect H W (multiply_grid a b).
Proof.
  intros [Ha Fa] [Hb Fb]. split.
  - unfold multiply_grid. rewrite length_map, length_combine. lia.
  - unfold multiply_grid. apply Forall_forall. intros x Hx.
    apply in_map_iff in Hx as [[r s] [<- Hin]]. cbn [fst snd]. rewrite multiply_row_length.
    rewrite Forall_forall in Fa, Fb.
    rewrite (Fa r (in_combine_l _ _ _ _ Hin)), (Fb s (in_combine_r _ _ _ _ Hin)). lia.
Qed.

Lemma multiply_row_assoc (r s u : list C) :
  length r = length s -> length s = length u ->
  map (fun p => cmul (fst p) (snd p)) (combine (map (fun p => cmul (fst p) (snd p)) (combine r s)) u) =
  map (fun p => cmul (fst p) (snd p)) (combine r (map (fun p => cmul (fst p) (snd p)) (combine s u))).
Proof.
  revert s u. induction r as [|z r IH]; intros [|w s] [|v u] H1 H2; simpl in *; try lia; try reflexivity.
  rewrite cmul_assoc, IH by lia. reflexivity.
Qed.

Lemma multiply_grid_assoc H W (a b c : grid) :
  rect H W a -> rect H W b -> rect H W c ->
  multiply_grid (multiply_grid a b) c = multiply_grid a (multiply_grid b c).
Proof.
  intros [Ha Fa] [Hb Fb] [Hc Fc]. assert (L1 : length a = length b) by congruence.
  assert (L2 : length b = length c) by congruence. clear Ha Hb Hc.
  revert b c L1 L2 Fb Fc. induction a as [|r a IH]; intros [|s b] [|u c] L1 L2 Fb Fc;
    simpl in *; try lia; try reflexivity.
  inversion Fa; inversion Fb; inversion Fc; subst.
  unfold multiply_grid in *; simpl. rewrite multiply_row_assoc by congruence.
  f_equal. apply IH; auto.
Qed.

Lemma conv_compose H W (x k1 k2 : grid) :
  rect H W x -> rect H W k1 -> rect H W k2 ->
  convolve_kernel (convolve_kernel x k1) k2 = convolve_kernel x (multiply_grid k1 k2).
Proof.
  intros Hx H1 H2. unfold convolve_kernel.
  assert (HF : rect H W (fft2 x)) by (apply dft2_rect; exact Hx).
  rewrite (fft2_ifft2 H W) by (apply multiply_grid_rect; assumption).
  rewrite (multiply_grid_assoc H W) by assumption. reflexivity.
Qed.

(** X12: convolving with [k1] and then with [k2] is convolving once with
    the product kernel [k1 * k2]. *)
Theorem convolve_kernel_compose H W (x k1 k2 : grid) :
  rect H W x -> rect H W k1 -> rect H W k2 ->
  convolve_kernel (convolve_kernel x k1) k2 = convolve_kernel x (multiply_grid k1 k2).
Proof.
  intros Hx H1 H2. unfold convolve_kernel.
  assert (HF : rect H W (fft2 x)) by (apply dft2_rect; exact Hx).
  rewrite (fft2_ifft2 H W) by (apply multiply_grid_rect; assumption).
  rewrite (multiply_grid_assoc H W) by assumption. reflexivity.
Qed.

Lemma convolve_kernel_compose_witness :
  convolve_kernel (convolve_kernel [[(1, 2)%R]] [[(0, 1)%R]]) [[(3, 0)%R]] =
  convolve_kernel [[(1, 2)%R]] (multiply_grid [[(0, 1)%R]] [[(3, 0)%R]]).
Proof.
  apply (convolve_kernel_compose 1 1); split; try reflexivity; repeat constructor.
Defined.

Lemma gmap_rect (f : C -> C) H W (g : grid) : rect H W g -> rect H W (gmap f g).
Proof.
  intros [Hl Hf]. split; [unfold gmap; rewrite length_map; exact Hl|].
  unfold gmap. apply Forall_map. eapply Forall_impl; [|exact Hf]. intros r Hr.
  rewrite length_map. exact Hr.
Qed.

Lemma gmap_gmap (f g : C -> C) (x : grid) : gmap f (gmap g x) = gmap (fun z => f (g z)) x.
Proof. unfold gmap. rewrite map_map. apply map_ext. intros r. apply map_map. Qed.

Lemma gmap_ext_in (f g : C -> C) (x : grid) :
  Forall (Forall (fun z => f z = g z)) x -> gmap f x = gmap g x.
Proof.
  intros Hx. unfold gmap. apply map_ext_in. intros r Hr. apply map_ext_in. intros z Hz.
  rewrite Forall_forall in Hx. specialize (Hx r Hr). rewrite Forall_forall in Hx. apply Hx, Hz.
Qed.

Lemma multiply_grid_gmap (f g : C -> C) (x : grid) :
  multiply_grid (gmap f x) (gmap g x) = gmap (fun z => cmul (f z) (g z)) x.
Proof.
  unfold multiply_grid, gmap. induction x as [|r x IH]; simpl; [reflexivity|]. f_equal; [|exact IH].
  induction r as [|z r IHr]; simpl; [reflexivity|]. f_equal. exact IHr.
Qed.

Lemma cconj_cconj (z : C) : cconj (cconj z) = z.
Proof. destruct z as [x y]. unfold cconj; simpl. f_equal. ring. Qed.

Lemma cconj_cmul (a b : C) : cmul (cconj a) (cconj b) = cconj (cmul a b).
Proof. destruct a, b. unfold cconj, cmul; simpl. f_equal; ring. Qed.

Lemma cexp_cscale_add (a b : R) (z : C) :
  cmul (cexp (cscale a z)) (cexp (cscale b z)) = cexp (cscale (a + b) z).
Proof.
  destruct z as [x y]. unfold cmul, cexp, cscale; cbn [fst snd].
  replace ((a + b) * x)%R with (a * x + b * x)%R by ring.
  replace ((a + b) * y)%R with (a * y + b * y)%R by ring.
  rewrite exp_plus, cos_plus, sin_plus. f_equal; ring.
Qed.

Lemma propagate_rect H W (kp f : grid) (d : R) :
  rect H W f -> rect H W kp -> rect H W (propagation.propagate kp f d).
Proof.
  intros Hf Hk. unfold propagation.propagate.
  destruct (Req_dec d 0) as [->|Hd].
  - unfold propagation.SingleSlice_forward. destruct (Req_dec_T 0 0); [exact Hf|contradiction].
  - rewrite single_slice_unfold_nonzero by exact Hd. cbn [fst].
    unfold convolve_kernel, ifft2. apply dft2_rect, multiply_grid_rect.
    + apply dft2_rect, Hf.
    + unfold propagation.defocus_kernel. destruct (Rlt_dec 0 d); repeat apply gmap_rect; exact Hk.
Qed.

(** Propagation by any distance is the convolution with the kernel of that
    distance (by 0: the kernel 1). *)
Lemma propagate_conv H W (kp f : grid) (d : R) :
  rect H W f -> rect H W kp ->
  propagation.propagate kp f d = convolve_kernel f (propagation.defocus_kernel kp d).
Proof.
  intros Hf Hk. destruct (Req_dec d 0) as [->|Hd].
  - unfold propagation.propagate, propagation.SingleSlice_forward.
    destruct (Req_dec_T 0 0) as [_|]; [|contradiction]. cbn [fst tret].
    rewrite defocus_kernel_zero. unfold convolve_kernel.
    rewrite (multiply_grid_ones H W) by (try apply dft2_rect; assumption).
    symmetry. apply (ifft2_fft2 H W), Hf.
  - unfold propagation.propagate. rewrite single_slice_unfold_nonzero by exact Hd. reflexivity.
Qed.

(** The kernel of a purely imaginary phase [(0, p)] at distance [d] is
    [cis (d p)], for either sign of [d]. *)
Lemma defocus_kernel_imag (kp : grid) (d : R) :
  Forall (Forall (fun z => fst z = 0%R)) kp ->
  propagation.defocus_kernel kp d = gmap (fun z => cis (d * snd z)) kp.
Proof.
  intros Hi. unfold propagation.defocus_kernel.
  destruct (Rlt_dec 0 d) as [Hd|Hd]; rewrite ?gmap_gmap; apply gmap_ext_in;
    (eapply Forall_impl; [|exact Hi]); intros r Hr; (eapply Forall_impl; [|exact Hr]);
    intros [x y] Hx; cbn [fst] in Hx; subst x; unfold cconj, cexp, cscale, cis; cbn [fst snd];
    rewrite Rmult_0_r, exp_0, !Rmult_1_l.
  - rewrite Rabs_pos_eq by lra. reflexivity.
  - rewrite Rabs_left1 by lra. replace (- d * y)%R with (- (d * y))%R by ring.
    rewrite cos_neg, sin_neg. f_equal. ring.
Qed.

Lemma propagate_add_imag H W (kp f : grid) (d1 d2 : R) :
  rect H W f -> rect H W kp -> Forall (Forall (fun z => fst z = 0%R)) kp ->
  propagation.propagate kp (propagation.propagate kp f d1) d2 = propagation.propagate kp f (d1 + d2).
Proof.
  intros Hf Hk Hi.
  rewrite (propagate_conv H W kp (propagation.propagate kp f d1)) by (try apply propagate_rect; assumption).
  rewrite !(propagate_conv H W kp f) by assumption.
  rewrite !defocus_kernel_imag by exact Hi.
  rewrite (conv_compose H W) by (try apply gmap_rect; assumption).
  rewrite multiply_grid_gmap. f_equal. apply gmap_ext_in.
  apply Forall_forall. intros r _. apply Forall_forall. intros z _.
  rewrite cis_add. f_equal. ring.
Qed.

Lemma multiply_row_conj_unit (r : list C) :
  Forall (fun z => (fst z ^ 2 + snd z ^ 2 = 1)%R) r ->
  map (fun p => cmul (fst p) (snd p)) (combine r (map cconj r)) = map (fun _ => (1, 0)%R) r.
Proof.
  induction r as [|[x y] r IH]; intros Hr; simpl; [reflexivity|].
  inversion Hr as [|? ? Hz Hr']; subst. cbn [fst snd] in Hz. rewrite IH by exact Hr'.
  f_equal. unfold cmul, cconj; cbn [fst snd]. f_equal; [|ring].
  transitivity (x ^ 2 + y ^ 2)%R; [ring|exact Hz].
Qed.

Lemma multiply_grid_conj_unit (k : grid) :
  Forall (Forall (fun z => (fst z ^ 2 + snd z ^ 2 = 1)%R)) k ->
  multiply_grid k (gmap cconj k) = gmap (fun _ => (1, 0)%R) k.
Proof.
  induction k as [|r k IH]; intros Hk; [reflexivity|].
  inversion Hk as [|? ? Hr Hk']; subst. unfold multiply_grid, gmap in *. simpl.
  rewrite multiply_row_conj_unit by exact Hr. f_equal. apply IH, Hk'.
Qed.

(** X13: for a kernel whose every value has modulus 1, the gradient that
    the backward pass of ComplexConv returns for [tensor_in], applied to
    the forward output, gives the input back. *)
Theorem complex_conv_backward_unit_kernel H W (x k : grid) :
  rect H W x -> rect H W k -> Forall (Forall (fun z => (fst z ^ 2 + snd z ^ 2 = 1)%R)) k ->
  fst (ComplexConv_backward k (ComplexConv_forward x k)) = x.
Proof.
  intros Hx Hk Hu. unfold ComplexConv_backward, ComplexConv_forward; cbn [fst].
  rewrite (conv_compose H W) by (try apply gmap_rect; assumption).
  rewrite multiply_grid_conj_unit by exact Hu.
  unfold convolve_kernel. rewrite (multiply_grid_ones H W) by (try apply dft2_rect; assumption).
  apply (ifft2_fft2 H W), Hx.
Qed.

Lemma complex_conv_backward_unit_kernel_witness :
  fst (ComplexConv_backward [[(0, 1)%R; (-1, 0)%R]] (ComplexConv_forward [[(1, 2)%R; (3, 4)%R]] [[(0, 1)%R; (-1, 0)%R]])) =
  [[(1, 2)%R; (3, 4)%R]].
Proof.
  apply (complex_conv_backward_unit_kernel 1 2).
  - split; [reflexivity|repeat constructor].
  - split; [reflexivity|repeat constructor].
  - repeat constructor; cbn [fst snd]; ring.
Defined.

(* ------------------------------------------------------------------ *)
(** ** Composition of propagations *)

(** X14: two propagations in the same direction (both distances positive,
    or both negative) are one propagation by the sum of the distances. *)
Theorem propagate_same_sign H W (kp f : grid) (d1 d2 : R) :
  rect H W f -> rect H W kp -> ((0 < d1 /\ 0 < d2) \/ (d1 < 0 /\ d2 < 0))%R ->
  propagation.propagate kp (propagation.propagate kp f d1) d2 = propagation.propagate kp f (d1 + d2).
Proof.
  intros Hf Hk Hs.
  assert (Hr : rect H W (propagation.propagate kp f d1)) by (apply propagate_rect; assumption).
  rewrite (propagate_conv H W kp _ d2 Hr Hk), !(propagate_conv H W kp f) by assumption.
  assert (HK : forall d, rect H W (propagation.defocus_kernel kp d)).
  { intros d. unfold propagation.defocus_kernel. destruct (Rlt_dec 0 d); repeat apply gmap_rect; exact Hk. }
  rewrite (conv_compose H W) by auto. f_equal.
  unfold propagation.defocus_kernel.
  destruct Hs as [[H1 H2]|[H1 H2]].
  - destruct (Rlt_dec 0 d1); [|lra]. destruct (Rlt_dec 0 d2); [|lra]. destruct (Rlt_dec 0 (d1 + d2)); [|lra].
    rewrite !gmap_gmap, multiply_grid_gmap. apply gmap_ext_in.
    apply Forall_forall. intros row _. apply Forall_forall. intros z _.
    rewrite cexp_cscale_add. f_equal. f_equal. rewrite !Rabs_pos_eq by lra. reflexivity.
  - destruct (Rlt_dec 0 d1); [lra|]. destruct (Rlt_dec 0 d2); [lra|]. destruct (Rlt_dec 0 (d1 + d2)); [lra|].
    rewrite !gmap_gmap, multiply_grid_gmap. apply gmap_ext_in.
    apply Forall_forall. intros row _. apply Forall_forall. intros z _.
    rewrite cconj_cmul, cexp_cscale_add. f_equal. f_equal. f_equal.
    rewrite !Rabs_left by lra. ring.
Qed.

Lemma propagate_same_sign_witness :
  propagation.propagate [[(-1, 2)%R]] (propagation.propagate [[(-1, 2)%R]] [[(1, 0)%R]] 1) 2 =
  propagation.propagate [[(-1, 2)%R]] [[(1, 0)%R]] (1 + 2).
Proof.
  apply (propagate_same_sign 1 1).
  - split; [reflexivity|repeat constructor].
  - split; [reflexivity|repeat constructor].
  - left; split; lra.
Defined.

(** X15: with a purely imaginary kernel phase (every value [(0, p)]),
    propagation by [d1] and then by [d2] is propagation by [d1 + d2], for
    distances of any signs; in particular propagating back by [-d] undoes
    propagation by [d]. *)
Theorem propagate_add_imag_phase H W (kp f : grid) (d1 d2 : R) :
  rect H W f -> rect H W kp -> Forall (Forall (fun z => fst z = 0%R)) kp ->
  propagation.propagate kp (propagation.propagate kp f d1) d2 = propagation.propagate kp f (d1 + d2).
Proof. apply propagate_add_imag. Qed.

Lemma propagate_add_imag_phase_witness :
  propagation.propagate [[(0, 1)%R]] (propagation.propagate [[(0, 1)%R]] [[(1, 0)%R]] 2) (-3) =
  propagation.propagate [[(0, 1)%R]] [[(1, 0)%R]] (2 + -3).
Proof.
  apply (propagate_add_imag_phase 1 1).
  - split; [reflexivity|repeat constructor].
  - split; [reflexivity|repeat constructor].
  - repeat constructor.
Defined.

Lemma gmap_id (g : grid) : gmap (fun z => z) g = g.
Proof. unfold gmap. erewrite map_ext; [apply map_id|]. intros r. apply map_id. Qed.

(** A layer whose every value is [1 + 0i] leaves a field of its size as
    it is. *)
Lemma complex_mul_transparent H W (a o : grid) :
  rect H W a -> rect H W o -> Forall (Forall (fun z => z = (1, 0)%R)) o -> complex_mul a o = a.
Proof.
  intros Ha Ho Hone. unfold complex_mul.
  replace o with (gmap (fun _ => (1, 0)%R) o) at 1.
  - apply (multiply_grid_ones H W); assumption.
  - rewrite <- (gmap_id o) at 2. apply gmap_ext_in.
    eapply Forall_impl; [|exact Hone]. intros r Hr. eapply Forall_impl; [|exact Hr].
    intros z Hz. symmetry. exact Hz.
Qed.

(** X16: through a volume of [L >= 2] transparent layers (every value
    [1 + 0i]) and with a purely imaginary kernel phase, multislice
    propagation returns the input field propagated by the distance to the
    volume's centre, [(L/2 - 1/2) s]. *)
Theorem multislice_transparent_volume H W (kp f : grid) (L : nat) (s : R) (obj : nat -> grid) :
  (2 <= L)%nat -> rect H W f -> rect H W kp -> Forall (Forall (fun z => fst z = 0%R)) kp ->
  (forall i, rect H W (obj i) /\ Forall (Forall (fun z => z = (1, 0)%R)) (obj i)) ->
  propagation.MultislicePropagation_forward kp L s obj (Some f) =
  propagation.propagate kp f (propagation.distance_to_center L s).
Proof.
  intros HL Hf Hk Hi Ho.
  assert (Hmul : forall x i, rect H W x -> complex_mul x (obj i) = x).
  { intros x i Hx. destruct (Ho i) as [Hr Hone]. apply (complex_mul_transparent H W); assumption. }
  assert (HP : forall d, rect H W (propagation.propagate kp f d)) by (intros; apply propagate_rect; assumption).
  assert (Hadd : forall a b, propagation.propagate kp (propagation.propagate kp f a) b =
                             propagation.propagate kp f (a + b)) by (intros; apply (propagate_add_imag H W); assumption).
  unfold propagation.MultislicePropagation_forward, propagation.Multislice_forward. cbv beta iota zeta.
  rewrite (Hmul f 0%nat Hf).
  replace (seq 1 (L - 1)) with (seq 1 (L - 2) ++ [(L - 1)%nat])
    by (replace (L - 1)%nat with (S (L - 2)) by lia; rewrite seq_S; reflexivity).
  rewrite fold_left_app. cbn [fold_left].
  match goal with |- context [fold_left ?st (seq 1 (L - 2)) _] => set (step := st) end.
  assert (Hloop : forall n st0 a, (st0 + n <= L - 1)%nat ->
            fold_left step (seq st0 n) (propagation.propagate kp f a) =
            propagation.propagate kp f (a + INR n * s)).
  { induction n as [|n IH]; intros st0 a Hn.
    - cbn [seq fold_left INR]. f_equal. ring.
    - cbn [seq fold_left].
      assert (E : step (propagation.propagate kp f a) st0 = propagation.propagate kp f (a + s)).
      { unfold step. destruct (Nat.ltb_spec st0 (L - 1)); [|lia]. rewrite Hmul by apply HP. apply Hadd. }
      rewrite E, IH by lia. f_equal. rewrite S_INR. ring. }
  rewrite Hloop by lia. rewrite Nat.ltb_irrefl. rewrite Hmul by apply HP. rewrite Hadd. f_equal.
  unfold propagation.distance_to_center. rewrite minus_INR by lia. cbn [INR]. field.
Qed.

Lemma multislice_transparent_volume_witness :
  propagation.MultislicePropagation_forward [[(0, 1)%R]] 3 2 (fun _ => [[(1, 0)%R]]) (Some [[(5, 6)%R]]) =
  propagation.propagate [[(0, 1)%R]] [[(5, 6)%R]] (propagation.distance_to_center 3 2).
Proof.
  apply (multislice_transparent_volume 1 1).
  - lia.
  - split; [reflexivity|repeat constructor].
  - split; [reflexivity|repeat constructor].
  - repeat constructor.
  - intros i. split; [split; [reflexivity|repeat constructor]|repeat constructor].
Defined.

(* ------------------------------------------------------------------ *)
(** ** The defocus stack *)

Lemma hwn_stack_roundtrip H W (slices : list grid) :
  (0 < H)%nat -> (0 < W)%nat -> Forall (rect H W) slices ->
  propagation.hwn_to_stack (propagation.stack_to_hwn H W slices) = slices.
Proof.
  intros HH HW Hs. unfold propagation.hwn_to_stack.
  set (g := propagation.stack_to_hwn H W slices).
  assert (Lg : length g = H) by (unfold g, propagation.stack_to_hwn; rewrite length_map, length_seq; reflexivity).
  assert (Hg : forall h w, (h < H)%nat -> (w < W)%nat ->
                 nth w (nth h g []) [] = map (fun sl => gget sl h w) slices).
  { intros h w Hh Hw. unfold g, propagation.stack_to_hwn. rewrite nth_map_seq by exact Hh.
    rewrite nth_map_seq by exact Hw. reflexivity. }
  assert (Lh : length (hd [] g) = W).
  { destruct H as [|H']; [lia|].
    unfold g, propagation.stack_to_hwn. cbn [seq map hd]. rewrite length_map, length_seq. reflexivity. }
  assert (Ln : length (hd [] (hd [] g)) = length slices).
  { destruct H as [|H']; [lia|]. destruct W as [|W']; [lia|].
    unfold g, propagation.stack_to_hwn. cbn [seq map hd]. rewrite length_map. reflexivity. }
  rewrite Lg, Lh, Ln.
  apply nth_ext with (d := []) (d' := []); [rewrite length_map, length_seq; reflexivity|].
  intros j Hj. rewrite length_map, length_seq in Hj. rewrite nth_map_seq by exact Hj.
  assert (Hrj : rect H W (nth j slices [])) by (rewrite Forall_forall in Hs; apply Hs, nth_In; exact Hj).
  etransitivity; [|apply (grid_eta H W _ Hrj)].
  apply map_ext_in; intros h Hh; apply map_ext_in; intros w Hw. apply in_seq in Hh, Hw.
  rewrite Hg by lia. rewrite nth_map_lt with (d' := ([] : grid)) by exact Hj. reflexivity.
Qed.

(** X17: slice [j] of the defocus stack (after [.permute(2,0,1,3)]) is the
    field propagated by single-slice propagation over the offset [d_j]. *)
Theorem defocus_forward_slices H W (field kernel : grid) (dl : propagation.defocus_arg) :
  (0 < H)%nat -> (0 < W)%nat -> rect H W field -> rect H W kernel ->
  propagation.hwn_to_stack (fst (propagation.Defocus_forward field kernel dl)) =
  map (propagation.propagate kernel field) (propagation.offsets dl).
Proof.
  intros HH HW Hf Hk. unfold propagation.Defocus_forward. cbn [fst].
  assert (HF : rect H W (fft2 field)) by (apply dft2_rect; exact Hf).
  assert (Hr : rows (fft2 field) = H) by (destruct HF; assumption).
  rewrite Hr, (cols_rect H W _ HF HH). rewrite map_map.
  rewrite hwn_stack_roundtrip; [|assumption|assumption|].
  2:{ apply Forall_forall. intros x Hx. apply in_map_iff in Hx as [d [<- _]].
      apply dft2_rect, multiply_grid_rect; [exact HF|].
      unfold propagation.defocus_kernel. destruct (Rlt_dec 0 d); repeat apply gmap_rect; exact Hk. }
  apply map_ext. intros d. rewrite (propagate_conv H W) by assumption. reflexivity.
Qed.

Lemma defocus_forward_slices_witness :
  propagation.hwn_to_stack (fst (propagation.Defocus_forward [[(1, 2)%R]] [[(0, 1)%R]]
                                   (propagation.TensorList [(-1)%R; 0%R; 2%R]))) =
  map (propagation.propagate [[(0, 1)%R]] [[(1, 2)%R]]) [(-1)%R; 0%R; 2%R].
Proof.
  apply (defocus_forward_slices 1 1); try lia; split; try reflexivity; repeat constructor.
Defined.

(** X18: for every offset, the backward pass of the defocus stack
    multiplies by the complex conjugate of the kernel the forward pass
    uses for that offset. *)
Theorem defocus_backward_kernel_conj (kernel : grid) (d : R) :
  propagation.defocus_backward_kernel kernel d = gmap cconj (propagation.defocus_kernel kernel d).
Proof.
  unfold propagation.defocus_backward_kernel, propagation.defocus_kernel.
  destruct (Rlt_dec d 0) as [Hn|Hn], (Rlt_dec 0 d) as [Hp|Hp]; try lra.
  - rewrite !gmap_gmap. apply gmap_ext_in.
    apply Forall_forall; intros r _; apply Forall_forall; intros z _. symmetry. apply cconj_cconj.
  - reflexivity.
  - assert (d = 0%R) by lra. subst d. rewrite !gmap_gmap. apply gmap_ext_in.
    apply Forall_forall; intros r _; apply Forall_forall; intros [x y] _.
    unfold cconj, cexp, cscale; cbn [fst snd]. rewrite Rabs_R0, !Rmult_0_l, exp_0, sin_0.
    f_equal; ring.
Qed.

Lemma divide_last_at t k v sh :
  shape t = sh ++ [2%nat] -> length (data t) = (numel sh * 2)%nat -> (k < 2)%nat -> shape v = sh ->
  exists r, divide_last t k v = Ok r /\ shape r = sh ++ [2%nat] /\
    length (data r) = (numel sh * 2)%nat /\
    forall j c, (j < numel sh)%nat -> (c < 2)%nat ->
      nth (j * 2 + c) (data r) 0%R =
      if (c =? k)%nat then (nth (j * 2 + c) (data t) 0%R / nth j (data v) 0%R)%R
      else nth (j * 2 + c) (data t) 0%R.
Proof.
  intros Hs Hl Hk Hv. unfold divide_last. rewrite Hv.
  replace (removelast (shape t)) with sh by (rewrite Hs, removelast_last; reflexivity).
  destruct (list_eq_dec Nat.eq_dec sh sh) as [_|n]; [|contradiction].
  apply (update_last_at t k (fun c x => (x / nth c (data v) 0%R)%R) sh Hs Hl Hk).
Qed.

(** X19: when the two inputs and the incoming gradient have the same
    complex shape, the gradient [ComplexDiv.backward] returns for the
    numerator is the incoming gradient divided by the conjugate of the
    denominator. *)
Theorem complex_div_backward_grad1 (a b g : tensor) (sh : list nat) :
  shape a = sh ++ [2%nat] -> shape b = sh ++ [2%nat] -> shape g = sh ++ [2%nat] ->
  length (data b) = (numel sh * 2)%nat ->
  (p <- operators.ComplexDiv_backward a b g ;; Ok (fst p)) =
  (cb <- operators.conj b ;; operators.division_complex g cb).
Proof.
  intros Ha Hb Hg Hlb. unfold operators.ComplexDiv_backward. cbv zeta.
  destruct (sum_sq_at b sh Hb Hlb) as [Sd [Ld Cd]].
  set (den := sum_last (tmap (fun x => x ^ 2)%R b)) in *.
  destruct (divide_last_at b 0 den sh Hb Hlb ltac:(lia) Sd) as [g1 [E1 [S1 [L1 C1]]]].
  rewrite E1; cbn [bind].
  destruct (divide_last_at g1 1 den sh S1 L1 ltac:(lia) Sd) as [g1' [E1' [S1' [L1' C1']]]].
  rewrite E1'; cbn [bind].
  destruct (multiply_complex_cells g1' g sh S1' Hg) as [gi1 [Egi1 [Sgi1 [Lgi1 Cgi1]]]].
  rewrite Egi1; cbn [bind].
  destruct (multiply_complex_cells b b sh Hb Hb) as [sq [Esq [Ssq [Lsq Csq]]]].
  rewrite Esq; cbn [bind].
  destruct (division_complex_cells a sq sh Ha Ssq Lsq) as [q [Eq [Sq [Lq Cq]]]].
  rewrite Eq; cbn [bind].
  destruct (conj_cells q sh Sq Lq) as [cq [Ecq [Scq [Lcq Ccq]]]].
  rewrite Ecq; cbn [bind].
  destruct (multiply_complex_cells (tmap (fun x => -1 * x)%R cq) g sh Scq Hg)
    as [gi2 [Egi2 [Sgi2 [Lgi2 Cgi2]]]].
  rewrite Egi2; cbn [bind]. rewrite Ha, Hb, Nat.ltb_irrefl. cbn [bind fst].
  destruct (conj_cells b sh Hb Hlb) as [cb [Ecb [Scb [Lcb Ccb]]]].
  rewrite Ecb; cbn [bind].
  destruct (division_complex_cells g cb sh Hg Scb Lcb) as [r [Er [Sr [Lr Cr]]]].
  rewrite Er. f_equal. apply (cells_ext gi1 r sh); auto.
  intros j Hj. rewrite Cgi1 by exact Hj. pose proof (Cr j Hj) as Crj.
  rewrite Ccb in Crj by exact Hj.
  assert (Cg1 : cell g1' j =
            (fst (cell b j) / nth j (data den) 0, snd (cell b j) / nth j (data den) 0)%R).
  { unfold cell. pose proof (C1' j 0 Hj ltac:(lia)) as A0. pose proof (C1' j 1 Hj ltac:(lia)) as A1.
    pose proof (C1 j 0 Hj ltac:(lia)) as B0. pose proof (C1 j 1 Hj ltac:(lia)) as B1.
    rewrite Nat.add_0_r in A0, B0. simpl in A0, A1, B0, B1. rewrite A0, A1, B0, B1. reflexivity. }
  rewrite Cg1, Cd by exact Hj. revert Crj.
  destruct (cell g j) as [x y], (cell b j) as [u v]. unfold cconj, cmul. cbn [fst snd].
  intros ->. replace ((v * -1) ^ 2)%R with (v ^ 2)%R by ring. f_equal; unfold Rdiv; ring.
Qed.

Lemma complex_div_backward_grad1_witness :
  (p <- operators.ComplexDiv_backward (mkT [1%nat; 2%nat] [1%R; 2%R]) (mkT [1%nat; 2%nat] [3%R; 4%R])
          (mkT [1%nat; 2%nat] [5%R; 6%R]) ;; Ok (fst p)) =
  (cb <- operators.conj (mkT [1%nat; 2%nat] [3%R; 4%R]) ;;
   operators.division_complex (mkT [1%nat; 2%nat] [5%R; 6%R]) cb).
Proof.
  apply (complex_div_backward_grad1 _ _ _ [1%nat]); reflexivity.
Defined.
